(** * tutor-contrib-event-bus-redis: the plugin module and the hook registry

    A shallow embedding of [tutorevent_bus_redis/plugin.py].  The module is
    a sequence of top-level statements that push contributions into the
    host's filters ([hooks.Filters.X.add_items]) and that read bundled
    files ([pkg_resources.resource_filename], [glob], [open]).  The file
    system and the registry are an explicit world that every statement
    threads; a raised exception stops the module and keeps the world as
    it was at that point, as in Python. *)

From Stdlib Require Import ZArith Ascii String List Lia.
From stdpp Require Import base option list strings gmap fin_maps.

Local Open Scope string_scope.
Local Open Scope list_scope.

(** ** Python values *)

(** The objects the module passes around: [str], [bool], [int], [None],
    lists and tuples. *)
#[warnings="-register-all"]
Inductive value : Type :=
| VStr (s : string)
| VBool (b : bool)
| VInt (n : Z)
| VNone
| VList (l : list value)
| VTuple (l : list value).

(** ** posixpath *)

Definition sep : ascii := "/"%char.

Definition is_sep (c : ascii) : bool := Ascii.eqb c sep.

Fixpoint has_sep (s : string) : bool :=
  match s with
  | EmptyString => false
  | String c s' => is_sep c || has_sep s'
  end.

(** [s.startswith("/")] *)
Definition startswith_sep (s : string) : bool :=
  match s with
  | EmptyString => false
  | String c _ => is_sep c
  end.

(** [s.endswith("/")] *)
Fixpoint endswith_sep (s : string) : bool :=
  match s with
  | EmptyString => false
  | String c EmptyString => is_sep c
  | String _ s' => endswith_sep s'
  end.

Definition is_empty (s : string) : bool :=
  match s with
  | EmptyString => true
  | String _ _ => false
  end.

(** One round of the loop of [posixpath.join]: an absolute component
    restarts the path, otherwise it is appended with one separator. *)
Definition join_step (path b : string) : string :=
  if startswith_sep b then b
  else if is_empty path || endswith_sep path then path +:+ b
  else path +:+ "/" +:+ b.

(** [os.path.join(a, *p)] *)
Definition os_path_join (a : string) (p : list string) : string :=
  fold_left join_step p a.

(** [os.path.basename(p)]: what follows the last separator. *)
Fixpoint basename (p : string) : string :=
  match p with
  | EmptyString => EmptyString
  | String c p' =>
      if has_sep p' then basename p'
      else if is_sep c then p'
      else p
  end.

(** [p[:p.rfind("/") + 1]]: the part up to and including the last
    separator. *)
Fixpoint head_with_sep (p : string) : string :=
  match p with
  | EmptyString => EmptyString
  | String c p' =>
      if has_sep p' then String c (head_with_sep p')
      else if is_sep c then String c EmptyString
      else EmptyString
  end.

Fixpoint all_sep (s : string) : bool :=
  match s with
  | EmptyString => true
  | String c s' => is_sep c && all_sep s'
  end.

(** [s.rstrip("/")] *)
Fixpoint rstrip_sep (s : string) : string :=
  match s with
  | EmptyString => EmptyString
  | String c s' => if all_sep s then EmptyString else String c (rstrip_sep s')
  end.

(** [os.path.split(p)] *)
Definition os_path_split (p : string) : string * string :=
  let head := head_with_sep p in
  let tail := basename p in
  (if negb (is_empty head) && negb (all_sep head) then rstrip_sep head else head,
   tail).

(** [s.split("/")] *)
Fixpoint split_sep (s : string) : list string :=
  match s with
  | EmptyString => [EmptyString]
  | String c s' =>
      if is_sep c then EmptyString :: split_sep s'
      else match split_sep s' with
           | [] => [String c EmptyString]
           | w :: ws => String c w :: ws
           end
  end.

(** ** Exceptions *)

(** What the statements of the module can raise.  The first four come
    from [open] and [read]; the last two are the registry's. *)
Inductive exn : Type :=
| FileNotFoundError (path : string)
| IsADirectoryError (path : string)
| PermissionError (path : string)
| UnicodeDecodeError (path : string)
| ConfigurationError (point_name : string)
| LateRegistrationError (point_name : string).

(** Modelled from the spec: the error taxonomy names one class,
    ResourceResolutionError, for a bundled file or directory that cannot
    be located or read.  The module raises no class of its own: these
    are the exceptions of [open] and [read] that fall into it. *)
Definition is_resource_resolution_error (e : exn) : bool :=
  match e with
  | FileNotFoundError _ | IsADirectoryError _
  | PermissionError _ | UnicodeDecodeError _ => true
  | ConfigurationError _ | LateRegistrationError _ => false
  end.

(** ** The file system *)

(** What reading a regular file in text mode with [encoding="utf-8"]
    gives: its text, a decoding failure, or no permission. *)
Inductive file_content : Type :=
| Text (s : string)
| Undecodable
| Unreadable.

(** A directory carries its entry names in the order the operating
    system lists them, which is not sorted in general.  A listed name
    with no node of its own is a dangling link. *)
Inductive node : Type :=
| RegularFile (content : file_content)
| Directory (listing : list string).

(** Paths are the keys: the file system maps a path to its node. *)
Definition listdir (fs : gmap string node) (dirname : string) : list string :=
  match fs !! dirname with
  | Some (Directory names) => names
  | _ => []
  end.

(** [glob._ishidden] *)
Definition ishidden (name : string) : bool :=
  match name with
  | String c _ => Ascii.eqb c "."%char
  | EmptyString => false
  end.

(** [fnmatch] for patterns made of [*], [?] and literal characters. *)
Fixpoint fnmatch (pat name : string) {struct pat} : bool :=
  match pat with
  | EmptyString => is_empty name
  | String p pat' =>
      if Ascii.eqb p "*"%char then
        (fix star (n : string) : bool :=
           fnmatch pat' n ||
           match n with
           | EmptyString => false
           | String _ n' => star n'
           end) name
      else
        match name with
        | EmptyString => false
        | String c name' =>
            (Ascii.eqb p "?"%char || Ascii.eqb p c) && fnmatch pat' name'
        end
  end.

(** [glob._glob1]: the entries of [dirname] that match, hidden ones left
    out unless the pattern itself is hidden; a directory that cannot be
    listed has no entries. *)
Definition glob1 (fs : gmap string node) (dirname pattern : string) : list string :=
  let names := listdir fs dirname in
  let names := if ishidden pattern then names
               else List.filter (fun x => negb (ishidden x)) names in
  List.filter (fnmatch pattern) names.

(** [glob.has_magic]: the string holds one of [*], [?] and [[]. *)
Fixpoint has_magic (s : string) : bool :=
  match s with
  | EmptyString => false
  | String c s' =>
      Ascii.eqb c "*"%char || Ascii.eqb c "?"%char || Ascii.eqb c "["%char
      || has_magic s'
  end.

(** [glob.glob(pathname)] for a pathname with a directory part and a
    wildcard in its last component: the branch of [_iglob] after its
    two early returns.  A directory part without wildcards is the one
    directory searched; one with wildcards is itself expanded by a
    recursive call [_iglob(dirname, ..., dironly=True)], whose result
    on the file system of the process is the parameter [iglob_dirs].
    Every directory found is listed with [_glob1], and each match is
    joined to the directory it was found in. *)
Definition glob (iglob_dirs : string -> list string) (fs : gmap string node)
    (pathname : string) : list string :=
  let '(dirname, pattern) := os_path_split pathname in
  let dirs :=
    if negb (String.eqb dirname pathname) && has_magic dirname
    then iglob_dirs dirname
    else [dirname] in
  flat_map
    (fun d => List.map (fun name => os_path_join d [name]) (glob1 fs d pattern))
    dirs.

(** ** The registry *)

(** Modelled from the spec: the hook registry is the host's ([tutor.hooks]);
    this package only calls it and holds none of its code.  These are
    the phases of the host process, which goes
    UNINITIALIZED -> REGISTERING -> SEALED. *)
Inductive phase : Type := UNINITIALIZED | REGISTERING | SEALED.

(** Modelled from the spec: the merge rule the host gives an Extension
    Point, fixed for its lifetime. *)
Inductive merge_kind : Type := OverrideByKey | OrderedAppend | LastWriterWins.

(** Modelled from the spec: the host's Item Stores, one per Extension
    Point name, each the sequence of its contributions in registration
    order; a name with no entry is a store not yet used. *)
Record registry : Type := MkRegistry {
  reg_phase : phase;
  reg_stores : gmap string (list value)
}.

(** The state the module runs in. *)
Record world : Type := MkWorld {
  w_fs : gmap string node;
  w_hooks : registry
}.

Inductive result (A : Type) : Type :=
| Ok (a : A)
| Raise (e : exn).

Arguments Ok {A} a.
Arguments Raise {A} e.

(** A statement: it changes the world and returns or raises. *)
Definition M (A : Type) : Type := world -> world * result A.

Definition ret {A : Type} (a : A) : M A := fun w => (w, Ok a).

Definition raise {A : Type} (e : exn) : M A := fun w => (w, Raise e).

Definition bind {A B : Type} (m : M A) (k : A -> M B) : M B :=
  fun w =>
    match m w with
    | (w', Ok a) => k a w'
    | (w', Raise e) => (w', Raise e)
    end.

Notation "x <- m ;; k" := (bind m (fun x => k))
  (at level 100, m at next level, right associativity).
Notation "m ;;; k" := (bind m (fun _ => k))
  (at level 100, right associativity).

(** [for x in l: body(x)] *)
Fixpoint for_each {A : Type} (body : A -> M unit) (l : list A) : M unit :=
  match l with
  | [] => ret tt
  | x :: l' => body x ;;; for_each body l'
  end.

(** [with open(path, encoding="utf-8") as f: f.read()] *)
Definition open_read (path : string) : M string :=
  fun w =>
    match w_fs w !! path with
    | None => (w, Raise (FileNotFoundError path))
    | Some (Directory _) => (w, Raise (IsADirectoryError path))
    | Some (RegularFile Unreadable) => (w, Raise (PermissionError path))
    | Some (RegularFile Undecodable) => (w, Raise (UnicodeDecodeError path))
    | Some (RegularFile (Text s)) => (w, Ok s)
    end.

(** [glob(pathname)] as a statement. *)
Definition glob_paths (iglob_dirs : string -> list string) (pathname : string)
  : M (list string) :=
  fun w => (w, Ok (glob iglob_dirs (w_fs w) pathname)).

(** Modelled from the spec: the host's [all()] of the Item Store of
    [name], its contributions in registration order. *)
Definition all (name : string) (r : registry) : list value :=
  default [] (reg_stores r !! name).

(** Modelled from the spec: the host's [add] appends to the end of the
    store, with no uniqueness check; it is refused with
    LateRegistrationError once the process is SEALED. *)
Definition add (name : string) (item : value) : M unit :=
  fun w =>
    let r := w_hooks w in
    match reg_phase r with
    | SEALED => (w, Raise (LateRegistrationError name))
    | _ =>
        (MkWorld (w_fs w)
           (MkRegistry (reg_phase r)
              (<[name := all name r ++ [item]]> (reg_stores r))),
         Ok tt)
    end.

(** The filters the module names, as [hooks.Filters] spells them. *)
Module Filters.
Definition CONFIG_DEFAULTS : string := "CONFIG_DEFAULTS".
Definition CONFIG_UNIQUE : string := "CONFIG_UNIQUE".
Definition CONFIG_OVERRIDES : string := "CONFIG_OVERRIDES".
Definition CLI_DO_INIT_TASKS : string := "CLI_DO_INIT_TASKS".
Definition CLI_DO_COMMANDS : string := "CLI_DO_COMMANDS".
Definition CLI_COMMANDS : string := "CLI_COMMANDS".
Definition IMAGES_BUILD : string := "IMAGES_BUILD".
Definition IMAGES_PULL : string := "IMAGES_PULL".
Definition IMAGES_PUSH : string := "IMAGES_PUSH".
Definition ENV_TEMPLATE_ROOTS : string := "ENV_TEMPLATE_ROOTS".
Definition ENV_TEMPLATE_TARGETS : string := "ENV_TEMPLATE_TARGETS".
Definition ENV_PATCHES : string := "ENV_PATCHES".
End Filters.

(** Modelled from the spec: the host's global table of known Extension
    Points with their merge rules.  The names are those the module uses
    or mentions; configuration points override by key, the others
    append in order. *)
Definition extension_points : list (string * merge_kind) :=
  [ (Filters.CONFIG_DEFAULTS, OverrideByKey);
    (Filters.CONFIG_UNIQUE, OverrideByKey);
    (Filters.CONFIG_OVERRIDES, OverrideByKey);
    (Filters.CLI_DO_INIT_TASKS, OrderedAppend);
    (Filters.CLI_DO_COMMANDS, OrderedAppend);
    (Filters.CLI_COMMANDS, OrderedAppend);
    (Filters.IMAGES_BUILD, OrderedAppend);
    (Filters.IMAGES_PULL, OrderedAppend);
    (Filters.IMAGES_PUSH, OrderedAppend);
    (Filters.ENV_TEMPLATE_ROOTS, OrderedAppend);
    (Filters.ENV_TEMPLATE_TARGETS, OrderedAppend);
    (Filters.ENV_PATCHES, OrderedAppend) ].

Fixpoint merge_kind_of (table : list (string * merge_kind)) (name : string)
  : option merge_kind :=
  match table with
  | [] => None
  | (n, k) :: table' => if String.eqb n name then Some k else merge_kind_of table' name
  end.

(** Modelled from the spec: the host's
    [register(point_name, contributions)] resolves the name in the table
    of known points, fails with ConfigurationError on an unknown one,
    and otherwise calls [add] for each element in order. *)
Definition register (point_name : string) (contributions : list value) : M unit :=
  match merge_kind_of extension_points point_name with
  | None => raise (ConfigurationError point_name)
  | Some _ => for_each (add point_name) contributions
  end.

(** Modelled from the spec: [hooks.Filters.X.add_items(items)], the
    operation the host exposes for each known point, is [register]
    under the name of the point. *)
Definition add_items (name : string) (items : list value) : M unit :=
  register name items.

(** Modelled from the spec: [hooks.Filters.X.add_item(item)], the host's
    operation for a single contribution. *)
Definition add_item (name : string) (item : value) : M unit :=
  add_items name [item].

(** ** The process as a state machine *)

(** Modelled from the spec: the host process starts UNINITIALIZED with
    no store in use. *)
Definition initial_world (fs : gmap string node) : world :=
  MkWorld fs (MkRegistry UNINITIALIZED ∅).

(** Modelled from the spec: UNINITIALIZED -> REGISTERING, when the
    add-ons start to execute. *)
Definition start_registration : M unit :=
  fun w =>
    let r := w_hooks w in
    match reg_phase r with
    | UNINITIALIZED => (MkWorld (w_fs w) (MkRegistry REGISTERING (reg_stores r)), Ok tt)
    | _ => (w, Ok tt)
    end.

(** Modelled from the spec: REGISTERING -> SEALED, when the host begins
    its merge pass. *)
Definition seal : M unit :=
  fun w =>
    let r := w_hooks w in
    match reg_phase r with
    | REGISTERING => (MkWorld (w_fs w) (MkRegistry SEALED (reg_stores r)), Ok tt)
    | _ => (w, Ok tt)
    end.

(** What can happen to the registry during a process. *)
Inductive op : Type :=
| OpStart
| OpAdd (name : string) (item : value)
| OpRegister (point_name : string) (contributions : list value)
| OpSeal.

Definition run_op (o : op) : M unit :=
  match o with
  | OpStart => start_registration
  | OpAdd name item => add name item
  | OpRegister point_name contributions => register point_name contributions
  | OpSeal => seal
  end.

(** The world after a sequence of operations; an operation that raises
    is reported to its caller and the process goes on from the world it
    left. *)
Fixpoint run_ops (ops : list op) (w : world) : world :=
  match ops with
  | [] => w
  | o :: ops' => run_ops ops' (fst (run_op o w))
  end.

(** ** The merge pass *)

(** A key/value contribution is a pair whose first component is a
    string. *)
Definition as_pair (v : value) : option (string * value) :=
  match v with
  | VTuple [VStr k; x] => Some (k, x)
  | _ => None
  end.

Definition pair_value (kv : string * value) : value :=
  VTuple [VStr (fst kv); snd kv].

(** Modelled from the spec: the host's merge pass for override-by-key
    iterates the contributions in registration order and builds a
    mapping in which a later contribution with the same key replaces
    the earlier one. *)
Definition merge_override (items : list (string * value)) : gmap string value :=
  fold_left (fun m kv => <[fst kv := snd kv]> m) items ∅.

(** Modelled from the spec: the effective mapping the host's merge pass
    gives for an override-by-key point, defined when every contribution
    in its store is a key/value pair. *)
Definition effective_mapping (name : string) (r : registry)
  : option (gmap string value) :=
  merge_override <$> mapM as_pair (all name r).


(** The value of the last contribution registered for [k], if any. *)
Fixpoint last_write (k : string) (items : list (string * value)) : option value :=
  match items with
  | [] => None
  | (k', v) :: items' =>
      match last_write k items' with
      | Some v' => Some v'
      | None => if String.eqb k' k then Some v else None
      end
  end.

(** ** The plugin module *)

Section Plugin.

(** [from .__about__ import __version__] *)
Variable __version__ : string.

(** Where [pkg_resources] finds an installed package. *)
Variable module_path : string -> string.

(** What [glob] expands a directory part holding wildcards to. *)
Variable iglob_dirs : string -> list string.

(** [pkg_resources.resource_filename] of a package installed on the
    file system. *)
Definition resource_filename (package_or_requirement resource_name : string) : string :=
  if is_empty resource_name then module_path package_or_requirement
  else os_path_join (module_path package_or_requirement) (split_sep resource_name).

Definition PRODUCER_CONFIG : string := "{
    'org.openedx.content_authoring.xblock.published.v1': {
        'content-authoring-xblock-lifecycle':
        {'event_key_field': 'xblock_info.usage_key', 'enabled': False},
    'content-authoring-xblock-published':
        {'event_key_field': 'xblock_info.usage_key', 'enabled': False},
    },
    'org.openedx.content_authoring.xblock.deleted.v1': {
        'content-authoring-xblock-lifecycle':
        {'event_key_field': 'xblock_info.usage_key', 'enabled': False},
    },
    'org.openedx.learning.auth.session.login.completed.v1': {
        'user-login': {'event_key_field': 'user.pii.username', 'enabled': True},
    },
}
".

(** The items passed to [hooks.Filters.CONFIG_DEFAULTS.add_items]. *)
Definition CONFIG_DEFAULTS_items : list (string * value) :=
  [ ("EVENT_BUS_REDIS_VERSION", VStr __version__);
    ("EVENT_BUS_BACKEND", VStr "kafka");
    ("EVENT_BUS_SEND_CATALOG_INFO_SIGNAL", VBool true);
    ("OPENEDX_EXTRA_PIP_REQUIREMENTS",
      VList [ VStr "edx-event-bus-redis==0.3.2";
              VStr "edx-event-bus-kafka==v5.6.0";
              VStr "openedx-events==v9.5.1";
              VStr "confluent_kafka[avro,schema-registry]" ]);
    ("EVENT_BUS_PRODUCER_CONFIG", VStr PRODUCER_CONFIG);
    ("EVENT_BUS_REDIS_RELEASE", VStr "edx-event-bus-redis=='0.3.2'");
    ("EVENT_BUS_REDIS_TOPIC_PREFIX", VStr "openedx");
    ("EVENT_BUS_REDIS_PRODUCER", VStr "edx_event_bus_redis.create_producer");
    ("EVENT_BUS_REDIS_CONSUMER", VStr "edx_event_bus_redis.RedisEventConsumer");
    ("EVENT_BUS_REDIS_CONSUMER_CONSECUTIVE_ERRORS_LIMIT", VInt 0);
    ("EVENT_BUS_REDIS_CONSUMER_POLL_TIMEOUT", VInt 60);
    ("EVENT_BUS_REDIS_STREAM_MAX_LEN", VInt 10000);
    ("EVENT_BUS_KAFKA_RELEASE", VStr "edx-event-bus-kafka=='v5.6.0'");
    ("RUN_KAFKA_SERVER", VBool true);
    ("RUN_KAFKA_UI", VBool true);
    ("EVENT_BUS_KAFKA_SCHEMA_REGISTRY_URL", VStr "http://schema-registry:18081");
    ("EVENT_BUS_KAFKA_BOOTSTRAP_SERVERS", VStr "kafka:29092");
    ("EVENT_BUS_KAFKA_PRODUCER", VStr "edx_event_bus_kafka.create_producer");
    ("EVENT_BUS_KAFKA_CONSUMER", VStr "edx_event_bus_kafka.KafkaEventConsumer");
    ("EVENT_BUS_KAFKA_TOPIC_PREFIX", VStr "dev") ].

(** [MY_INIT_TASKS]: pairs of a service and the components of a template
    path.  The module ships it empty. *)
Definition MY_INIT_TASKS : list (string * list string) := [].

(** The body of the loop over the init tasks: resolve the template, read
    it, and only then add the task. *)
Definition init_task_body (task : string * list string) : M unit :=
  let '(service, template_path) := task in
  let full_path :=
    resource_filename "tutorevent_bus_redis" (os_path_join "templates" template_path) in
  init_task <- open_read full_path ;;
  add_item Filters.CLI_DO_INIT_TASKS (VTuple [VStr service; VStr init_task]).

(** [for service, template_path in tasks: ...] *)
Definition load_init_tasks (tasks : list (string * list string)) : M unit :=
  for_each init_task_body tasks.

(** The items passed to [hooks.Filters.ENV_TEMPLATE_ROOTS.add_items]. *)
Definition ENV_TEMPLATE_ROOTS_items : list value :=
  [ VStr (resource_filename "tutorevent_bus_redis" "templates") ].

(** The items passed to [hooks.Filters.ENV_TEMPLATE_TARGETS.add_items]. *)
Definition ENV_TEMPLATE_TARGETS_items : list value :=
  [ VTuple [VStr "event-bus-redis/build"; VStr "plugins"];
    VTuple [VStr "event-bus-redis/apps"; VStr "plugins"] ].

(** The directory of the bundled patches. *)
Definition patches_dir : string :=
  resource_filename "tutorevent_bus_redis" "patches".

(** The body of the loop over the patch files: the file is read in full
    when the statement runs, and its text is what is stored. *)
Definition patch_body (path : string) : M unit :=
  text <- open_read path ;;
  add_item Filters.ENV_PATCHES (VTuple [VStr (basename path); VStr text]).

(** [for path in glob(os.path.join(patches_dir, "*")): ...] *)
Definition load_patches : M unit :=
  paths <- glob_paths iglob_dirs (os_path_join patches_dir ["*"]) ;;
  for_each patch_body paths.

(** The module, statement by statement. *)
Definition plugin : M unit :=
  add_items Filters.CONFIG_DEFAULTS (List.map pair_value CONFIG_DEFAULTS_items) ;;;
  add_items Filters.CONFIG_UNIQUE [] ;;;
  add_items Filters.CONFIG_OVERRIDES [] ;;;
  load_init_tasks MY_INIT_TASKS ;;;
  add_items Filters.IMAGES_BUILD [] ;;;
  add_items Filters.IMAGES_PULL [] ;;;
  add_items Filters.IMAGES_PUSH [] ;;;
  add_items Filters.ENV_TEMPLATE_ROOTS ENV_TEMPLATE_ROOTS_items ;;;
  add_items Filters.ENV_TEMPLATE_TARGETS ENV_TEMPLATE_TARGETS_items ;;;
  load_patches.

End Plugin.

(** ** Vocabulary of the statements *)

(** The text a path holds, when it is a regular file that can be read
    and decoded. *)
Definition read_text (fs : gmap string node) (path : string) : option string :=
  match fs !! path with
  | Some (RegularFile (Text s)) => Some s
  | _ => None
  end.

(** The entries of a directory that [*] matches, in listing order. *)
Definition visible_names (fs : gmap string node) (dirname : string) : list string :=
  List.filter (fun x => negb (ishidden x)) (listdir fs dirname).

(** A patch contribution: the pair of a name and a text. *)
Definition patch_item (name text : string) : value :=
  VTuple [VStr name; VStr text].

(** A directory entry name holds no separator. *)
Definition plain_name (name : string) : Prop := has_sep name = false.

(** The process has not begun its merge pass. *)
Definition accepting (w : world) : Prop := reg_phase (w_hooks w) <> SEALED.

(** The store of [name], looked up in a world. *)
Definition store (name : string) (w : world) : list value :=
  all name (w_hooks w).

(** Registering the contributions of several add-ons, one [register]
    call each, in the given order. *)
Definition register_all (point_name : string) (addons : list (list value)) : M unit :=
  for_each (register point_name) addons.

(** The filters to which the module passes an empty list. *)
Definition empty_contributions : list string :=
  [ Filters.CONFIG_UNIQUE; Filters.CONFIG_OVERRIDES;
    Filters.IMAGES_BUILD; Filters.IMAGES_PULL; Filters.IMAGES_PUSH ].

(** A statement respects a relation between worlds when every run of
    it, returning or raising, takes a world to a related one. *)
Definition respects (R : world -> world -> Prop) {A : Type} (m : M A) : Prop :=
  forall w, R w (fst (m w)).

(** Relations between the world before and after a statement. *)
Definition same_fs (w w' : world) : Prop := w_fs w' = w_fs w.

Definition same_phase (w w' : world) : Prop :=
  reg_phase (w_hooks w') = reg_phase (w_hooks w).

Definition same_store (n : string) (w w' : world) : Prop :=
  reg_stores (w_hooks w') !! n = reg_stores (w_hooks w) !! n.

(** From a SEALED world on, the registry is the same. *)
Definition sealed_frame (w w' : world) : Prop :=
  reg_phase (w_hooks w) = SEALED -> w_hooks w' = w_hooks w.

(** From a world that accepts contributions the statement returns, the
    world still accepts contributions, and the store of [n] has grown by
    [items]. *)
Definition grows (n : string) (items : list value) {A : Type} (m : M A) : Prop :=
  forall w, accepting w ->
    (exists a, snd (m w) = Ok a) /\
    accepting (fst (m w)) /\
    store n (fst (m w)) = store n w ++ items.

(** From a world that accepts contributions the statement, returning or
    raising, leaves the store of [n] grown by [items]. *)
Definition reaches (n : string) (items : list value) {A : Type} (m : M A) : Prop :=
  forall w, accepting w -> store n (fst (m w)) = store n w ++ items.

(** ** What a reading loop gets through *)

(** Both loops of the module visit a list, read one file for each
    element and add one contribution built from the element and the
    text.  These say how far such a loop gets on a file system: the
    elements up to the first whose file cannot be read as text, each
    with its text, and that first element. *)
Fixpoint readable_prefix {A : Type} (fs : gmap string node) (path : A -> string)
    (xs : list A) : list (A * string) :=
  match xs with
  | [] => []
  | x :: xs' =>
      match read_text fs (path x) with
      | Some text => (x, text) :: readable_prefix fs path xs'
      | None => []
      end
  end.

Fixpoint first_unreadable {A : Type} (fs : gmap string node) (path : A -> string)
    (xs : list A) : option A :=
  match xs with
  | [] => None
  | x :: xs' =>
      match read_text fs (path x) with
      | Some _ => first_unreadable fs path xs'
      | None => Some x
      end
  end.

(** The path of the entry [name] of the patches directory [d]. *)
Definition child (d name : string) : string := d +:+ "/" +:+ name.

(** The contribution of a patch file, from its entry name and text. *)
Definition patch_of (nt : string * string) : value := patch_item (fst nt) (snd nt).

(** The contribution of an init task, from the task and the text of its
    script. *)
Definition init_task_of (tt : (string * list string) * string) : value :=
  VTuple [VStr (fst (fst tt)); VStr (snd tt)].

(** The script an init task names, resolved in the package. *)
Definition init_task_path (module_path : string -> string)
    (task : string * list string) : string :=
  resource_filename module_path "tutorevent_bus_redis"
    (os_path_join "templates" (snd task)).

(** The filters to which the module passes a non-empty list or adds in
    its patch loop. *)
Definition written_filters : list string :=
  [ Filters.CONFIG_DEFAULTS; Filters.ENV_TEMPLATE_ROOTS;
    Filters.ENV_TEMPLATE_TARGETS; Filters.ENV_PATCHES ].

(** A component of a template path: a name that is not empty and holds
    no separator. *)
Definition component (c : string) : Prop :=
  is_empty c = false /\ has_sep c = false.

(** The contribution of a patch file, from the path [glob] gave and the
    text. *)
Definition patch_of_path (pt : string * string) : value :=
  patch_item (basename (fst pt)) (snd pt).

(** ** Sample worlds *)

(** A file system on which no directory pattern matches anything. *)
Definition no_expansion (dirname : string) : list string := [].


(** A package installed under site-packages. *)
Definition sample_module_path (package : string) : string :=
  "/site-packages/" +:+ package.

(** Its patches directory holds exactly [a.yml] and [b.yml]; the
    operating system lists [b.yml] first.  One init script is bundled,
    for the CMS. *)
Definition sample_fs : gmap string node :=
  <["/site-packages/tutorevent_bus_redis/patches" := Directory ["b.yml"; "a.yml"]]>
  (<["/site-packages/tutorevent_bus_redis/patches/a.yml" := RegularFile (Text "A")]>
  (<["/site-packages/tutorevent_bus_redis/patches/b.yml" := RegularFile (Text "B")]>
  (<["/site-packages/tutorevent_bus_redis/templates/event-bus-redis/jobs/init/cms.sh"
       := RegularFile (Text "echo cms")]>
   ∅))).

(** A process in which add-ons are registering, no store in use yet. *)
Definition sample_world : world :=
  MkWorld sample_fs (MkRegistry REGISTERING ∅).


(** An init task for the LMS whose script is not bundled. *)
Definition sample_init_task : string * list string :=
  ("lms", ["event-bus-redis"; "jobs"; "init"; "lms.sh"]).

(** An init task for the CMS, whose script is bundled. *)
Definition bundled_init_task : string * list string :=
  ("cms", ["event-bus-redis"; "jobs"; "init"; "cms.sh"]).

(** A process that registers one template root and is then sealed, and
    what add-ons attempt afterwards. *)
Definition sample_before_seal : list op :=
  [ OpStart; OpRegister Filters.ENV_TEMPLATE_ROOTS [VStr "pluginA/templates"]; OpSeal ].

Definition sample_after_seal : list op :=
  [ OpAdd Filters.ENV_PATCHES (patch_item "late.yml" "x");
    OpRegister Filters.ENV_TEMPLATE_ROOTS [VStr "pluginB/templates"];
    OpStart; OpSeal ].

(** A patches directory in which a subdirectory is listed between two
    patch files. *)
Definition subdir_fs : gmap string node :=
  <["/site-packages/tutorevent_bus_redis/patches" := Directory ["a.yml"; "drafts"; "b.yml"]]>
  (<["/site-packages/tutorevent_bus_redis/patches/a.yml" := RegularFile (Text "A")]>
  (<["/site-packages/tutorevent_bus_redis/patches/drafts" := Directory ["c.yml"]]>
  (<["/site-packages/tutorevent_bus_redis/patches/drafts/c.yml" := RegularFile (Text "C")]>
  (<["/site-packages/tutorevent_bus_redis/patches/b.yml" := RegularFile (Text "B")]>
   ∅)))).

Definition subdir_world : world :=
  MkWorld subdir_fs (MkRegistry REGISTERING ∅).

(** A process in which an earlier add-on has registered two defaults,
    one of them under a key of the module. *)
Definition earlier_defaults : list (string * value) :=
  [ ("EVENT_BUS_BACKEND", VStr "redis"); ("PLATFORM_NAME", VStr "My platform") ].

Definition later_world : world :=
  MkWorld sample_fs
    (MkRegistry REGISTERING
       (<[Filters.CONFIG_DEFAULTS := List.map pair_value earlier_defaults]> ∅)).

(** A package installed under a directory whose name holds brackets.
    The package has no patches directory of its own; another copy,
    installed under [/site-packages1], bundles one patch. *)
Definition bracket_module_path (package : string) : string :=
  "/site-packages[1]/" +:+ package.

Definition bracket_fs : gmap string node :=
  <["/" := Directory ["site-packages1"; "site-packages[1]"]]>
  (<["/site-packages[1]" := Directory ["tutorevent_bus_redis"]]>
  (<["/site-packages[1]/tutorevent_bus_redis" := Directory ["plugin.py"]]>
  (<["/site-packages[1]/tutorevent_bus_redis/plugin.py" := RegularFile (Text "")]>
  (<["/site-packages1" := Directory ["tutorevent_bus_redis"]]>
  (<["/site-packages1/tutorevent_bus_redis" := Directory ["patches"]]>
  (<["/site-packages1/tutorevent_bus_redis/patches" := Directory ["a.yml"]]>
  (<["/site-packages1/tutorevent_bus_redis/patches/a.yml" := RegularFile (Text "A")]>
   ∅))))))).

(** What [glob] expands the patches directory of that package to on
    that file system: as a pattern, [[1]] matches the character [1] and
    not the bracketed name, so the expansion is the directory of the
    other copy. *)
Definition bracket_expansion (dirname : string) : list string :=
  if String.eqb dirname "/site-packages[1]/tutorevent_bus_redis/patches"
  then ["/site-packages1/tutorevent_bus_redis/patches"]
  else [].

Definition bracket_world : world :=
  MkWorld bracket_fs (MkRegistry REGISTERING ∅).

(** * Properties *)

(** ** Paths *)

Lemma append_nil (t : string) : "" +:+ t = t.
Proof. reflexivity. Qed.

Lemma append_cons (c : ascii) (s t : string) :
  String c s +:+ t = String c (s +:+ t).
Proof. reflexivity. Qed.

Ltac push_append := rewrite ?append_cons, ?append_nil.

Lemma has_sep_app (s t : string) :
  has_sep (s +:+ t) = has_sep s || has_sep t.
Proof.
  induction s as [|c s IH]; push_append; simpl; [reflexivity|].
  rewrite IH. apply orb_assoc.
Qed.

Lemma is_empty_false_app (s t : string) :
  is_empty t = false -> is_empty (s +:+ t) = false.
Proof. destruct s; push_append; simpl; auto. Qed.

Lemma endswith_sep_app (s t : string) :
  is_empty t = false -> endswith_sep (s +:+ t) = endswith_sep t.
Proof.
  intros Ht. induction s as [|c s IH]; push_append; [reflexivity|].
  simpl. rewrite IH.
  destruct (s +:+ t) eqn:E; [|reflexivity].
  apply (is_empty_false_app s) in Ht. rewrite E in Ht. discriminate.
Qed.

Lemma plain_not_absolute (name : string) :
  has_sep name = false -> startswith_sep name = false.
Proof.
  destruct name as [|c name]; simpl; [reflexivity|].
  intros H. apply orb_false_iff in H. tauto.
Qed.

Lemma basename_plain (name : string) :
  has_sep name = false -> basename name = name.
Proof.
  destruct name as [|c name]; simpl; [reflexivity|].
  intros H. apply orb_false_iff in H as [Hc Hn]. now rewrite Hn, Hc.
Qed.

Lemma has_sep_after (s name : string) :
  has_sep (s +:+ "/" +:+ name) = true.
Proof. rewrite has_sep_app. apply orb_true_r. Qed.

(** What follows the last separator of [s/name] is [name]. *)
Lemma basename_app_sep (s name : string) :
  has_sep name = false -> basename (s +:+ "/" +:+ name) = name.
Proof.
  intros Hn. induction s as [|c s IH].
  - push_append. simpl. now rewrite Hn.
  - rewrite (append_cons c s). simpl. rewrite has_sep_after. exact IH.
Qed.

Lemma head_with_sep_app_sep (s name : string) :
  has_sep name = false -> head_with_sep (s +:+ "/" +:+ name) = s +:+ "/".
Proof.
  intros Hn. induction s as [|c s IH].
  - push_append. simpl. now rewrite Hn.
  - rewrite (append_cons c s). simpl. rewrite has_sep_after. now rewrite IH.
Qed.

Lemma all_sep_endswith (s : string) :
  is_empty s = false -> all_sep s = true -> endswith_sep s = true.
Proof.
  induction s as [|c s IH]; simpl; [discriminate|].
  intros _ H. apply andb_true_iff in H as [Hc Hs].
  destruct s as [|d s]; [exact Hc|].
  apply IH; [reflexivity | exact Hs].
Qed.

Lemma all_sep_app_sep (s : string) :
  all_sep (s +:+ "/") = all_sep s.
Proof.
  induction s as [|c s IH]; push_append; simpl; [reflexivity|]. now rewrite IH.
Qed.

Lemma rstrip_sep_app_sep (s : string) :
  endswith_sep s = false -> rstrip_sep (s +:+ "/") = s.
Proof.
  induction s as [|c s IH]; intros Hs; push_append; [reflexivity|].
  cbn [rstrip_sep].
  destruct (all_sep (String c (s +:+ "/"))) eqn:E.
  - exfalso. rewrite <- append_cons, all_sep_app_sep in E.
    apply all_sep_endswith in E; [congruence | reflexivity].
  - f_equal. destruct s as [|d s]; [reflexivity|].
    apply IH. exact Hs.
Qed.

(** Splitting [d/name] gives back [d] and [name], for a directory path
    that does not end in a separator. *)
Lemma os_path_split_join (d name : string) :
  is_empty d = false -> endswith_sep d = false -> has_sep name = false ->
  os_path_split (d +:+ "/" +:+ name) = (d, name).
Proof.
  intros Hd He Hn. unfold os_path_split.
  rewrite basename_app_sep, head_with_sep_app_sep by assumption.
  rewrite all_sep_app_sep.
  rewrite (is_empty_false_app d "/") by reflexivity.
  destruct (all_sep d) eqn:E.
  - apply all_sep_endswith in E; [congruence | assumption].
  - simpl. now rewrite rstrip_sep_app_sep.
Qed.

Lemma join_step_plain (d name : string) :
  is_empty d = false -> endswith_sep d = false -> has_sep name = false ->
  join_step d name = d +:+ "/" +:+ name.
Proof.
  intros Hd He Hn. unfold join_step.
  now rewrite (plain_not_absolute name Hn), Hd, He.
Qed.

Lemma fnmatch_star (name : string) : fnmatch "*" name = true.
Proof.
  induction name as [|c name IH]; [reflexivity|].
  simpl in *. exact IH.
Qed.

(** ** Statements *)

Lemma bind_ok {A B : Type} (m : M A) (k : A -> M B) (w w' : world) (a : A) :
  m w = (w', Ok a) -> bind m k w = k a w'.
Proof. intros H. unfold bind. now rewrite H. Qed.

Lemma bind_raise {A B : Type} (m : M A) (k : A -> M B) (w w' : world) (e : exn) :
  m w = (w', Raise e) -> bind m k w = (w', Raise e).
Proof. intros H. unfold bind. now rewrite H. Qed.

Lemma for_each_app {A : Type} (body : A -> M unit) (l1 l2 : list A) (w : world) :
  for_each body (l1 ++ l2) w =
  match for_each body l1 w with
  | (w', Ok _) => for_each body l2 w'
  | (w', Raise e) => (w', Raise e)
  end.
Proof.
  revert w. induction l1 as [|x l1 IH]; intros w; [reflexivity|].
  simpl. unfold bind. destruct (body x w) as [w1 [[]|e]]; [apply IH | reflexivity].
Qed.

(** *** Relations every statement of a process maintains *)

Section Frame.

Context (R : world -> world -> Prop).
Hypothesis R_refl : forall w, R w w.
Hypothesis R_trans : forall w1 w2 w3, R w1 w2 -> R w2 w3 -> R w1 w3.

Lemma respects_ret {A : Type} (a : A) : respects R (ret a).
Proof. intros w. apply R_refl. Qed.

Lemma respects_raise {A : Type} (e : exn) : respects R (@raise A e).
Proof. intros w. apply R_refl. Qed.

Lemma respects_bind {A B : Type} (m : M A) (k : A -> M B) :
  respects R m -> (forall a, respects R (k a)) -> respects R (bind m k).
Proof.
  intros Hm Hk w. unfold bind. specialize (Hm w).
  destruct (m w) as [w1 [a|e]]; simpl in *; [|exact Hm].
  eapply R_trans; [exact Hm | apply Hk].
Qed.

Lemma respects_for_each {A : Type} (body : A -> M unit) (l : list A) :
  (forall x, respects R (body x)) -> respects R (for_each body l).
Proof.
  intros Hb. induction l as [|x l IH]; simpl.
  - apply respects_ret.
  - apply respects_bind; [apply Hb | intros _; exact IH].
Qed.

Lemma respects_open_read (path : string) : respects R (open_read path).
Proof.
  intros w. unfold open_read.
  destruct (w_fs w !! path) as [[[s| |]|names]|]; apply R_refl.
Qed.

Lemma respects_glob_paths (iglob_dirs : string -> list string) (pathname : string) :
  respects R (glob_paths iglob_dirs pathname).
Proof. intros w. apply R_refl. Qed.

Lemma respects_register (point_name : string) (contributions : list value) :
  (forall item, respects R (add point_name item)) ->
  respects R (register point_name contributions).
Proof.
  intros Hadd. unfold register.
  destruct (merge_kind_of extension_points point_name).
  - now apply respects_for_each.
  - apply respects_raise.
Qed.

Lemma respects_run_ops (ops : list op) :
  (forall o, respects R (run_op o)) -> forall w, R w (run_ops ops w).
Proof.
  intros Ho. induction ops as [|o ops IH]; intros w; simpl.
  - apply R_refl.
  - eapply R_trans; [apply Ho | apply IH].
Qed.

End Frame.

(** *** The Item Store *)

Lemma all_insert_eq (name : string) (items : list value) (p : phase)
    (stores : gmap string (list value)) :
  all name (MkRegistry p (<[name := items]> stores)) = items.
Proof. unfold all. simpl. now rewrite lookup_insert_eq. Qed.

Lemma add_sealed (name : string) (item : value) (w : world) :
  reg_phase (w_hooks w) = SEALED ->
  add name item w = (w, Raise (LateRegistrationError name)).
Proof. intros H. unfold add. now rewrite H. Qed.

Lemma add_accepting (name : string) (item : value) (w : world) :
  accepting w ->
  add name item w =
  (MkWorld (w_fs w)
     (MkRegistry (reg_phase (w_hooks w))
        (<[name := store name w ++ [item]]> (reg_stores (w_hooks w)))),
   Ok tt).
Proof.
  unfold accepting, add, store. intros H.
  destruct (reg_phase (w_hooks w)); [reflexivity | reflexivity | congruence].
Qed.

(** [add] touches neither the file system nor the phase. *)
Lemma add_keeps_fs (name : string) (item : value) :
  respects (fun w w' => w_fs w' = w_fs w) (add name item).
Proof. intros w. unfold add. now destruct (reg_phase (w_hooks w)). Qed.

Lemma add_keeps_phase (name : string) (item : value) :
  respects (fun w w' => reg_phase (w_hooks w') = reg_phase (w_hooks w)) (add name item).
Proof.
  intros w. unfold add. cbv zeta.
  destruct (reg_phase (w_hooks w)) eqn:E; simpl; congruence.
Qed.

(** [add] leaves every other store as it is. *)
Lemma add_keeps_other (name n : string) (item : value) :
  n <> name ->
  respects (fun w w' => reg_stores (w_hooks w') !! n = reg_stores (w_hooks w) !! n)
    (add name item).
Proof.
  intros Hn w. unfold add.
  destruct (reg_phase (w_hooks w)); simpl; try reflexivity;
    rewrite lookup_insert_ne; congruence.
Qed.

(** What a run of [add] over a sequence does while the process accepts
    contributions: it succeeds and the store grows by the sequence, in
    the order passed. *)
Lemma for_each_add_accepting (name : string) (items : list value) (w : world) :
  accepting w ->
  snd (for_each (add name) items w) = Ok tt /\
  accepting (fst (for_each (add name) items w)) /\
  store name (fst (for_each (add name) items w)) = store name w ++ items.
Proof.
  revert w. induction items as [|x items IH]; intros w Hw.
  - simpl. rewrite app_nil_r. auto.
  - simpl. unfold bind. rewrite (add_accepting name x w Hw).
    match goal with |- context [for_each _ _ ?w1] => set (w1' := w1) end.
    assert (Hw1 : accepting w1') by exact Hw.
    destruct (IH w1' Hw1) as (Hr & Ha & Hs).
    split; [exact Hr|]. split; [exact Ha|].
    rewrite Hs. unfold w1', store at 1. simpl.
    rewrite all_insert_eq. now rewrite <- app_assoc.
Qed.

(** While SEALED, a run of [add] changes nothing, whatever it returns. *)
Lemma for_each_add_sealed (name : string) (items : list value) (w : world) :
  reg_phase (w_hooks w) = SEALED -> fst (for_each (add name) items w) = w.
Proof.
  intros H. destruct items as [|x items]; [reflexivity|].
  simpl. unfold bind. now rewrite (add_sealed name x w H).
Qed.

Lemma register_known (point_name : string) (contributions : list value) (k : merge_kind) :
  merge_kind_of extension_points point_name = Some k ->
  register point_name contributions = for_each (add point_name) contributions.
Proof. intros H. unfold register. now rewrite H. Qed.

Lemma register_unknown (point_name : string) (contributions : list value) (w : world) :
  merge_kind_of extension_points point_name = None ->
  register point_name contributions w = (w, Raise (ConfigurationError point_name)).
Proof. intros H. unfold register. now rewrite H. Qed.

Lemma register_accepting (point_name : string) (contributions : list value)
    (k : merge_kind) (w : world) :
  merge_kind_of extension_points point_name = Some k ->
  accepting w ->
  snd (register point_name contributions w) = Ok tt /\
  accepting (fst (register point_name contributions w)) /\
  store point_name (fst (register point_name contributions w)) =
    store point_name w ++ contributions.
Proof.
  intros Hk Hw. rewrite (register_known _ _ _ Hk).
  now apply for_each_add_accepting.
Qed.

Lemma register_keeps_fs (point_name : string) (contributions : list value) :
  respects (fun w w' => w_fs w' = w_fs w) (register point_name contributions).
Proof.
  apply respects_register; [reflexivity | congruence | apply add_keeps_fs].
Qed.

Lemma register_keeps_other (point_name n : string) (contributions : list value) :
  n <> point_name ->
  respects (fun w w' => reg_stores (w_hooks w') !! n = reg_stores (w_hooks w) !! n)
    (register point_name contributions).
Proof.
  intros Hn. apply respects_register; [reflexivity | congruence |].
  intros item. now apply add_keeps_other.
Qed.

(** Registering the empty sequence changes nothing. *)
Lemma register_nil (point_name : string) (w : world) :
  fst (register point_name [] w) = w.
Proof. unfold register. now destruct (merge_kind_of extension_points point_name). Qed.

(** Several [register] calls in a row append the concatenation. *)
Lemma register_all_accepting (point_name : string) (addons : list (list value))
    (k : merge_kind) (w : world) :
  merge_kind_of extension_points point_name = Some k ->
  accepting w ->
  snd (register_all point_name addons w) = Ok tt /\
  accepting (fst (register_all point_name addons w)) /\
  store point_name (fst (register_all point_name addons w)) =
    store point_name w ++ concat addons.
Proof.
  intros Hk. revert w. induction addons as [|items addons IH]; intros w Hw.
  - simpl. rewrite app_nil_r. auto.
  - unfold register_all in *. simpl. unfold bind.
    destruct (register_accepting point_name items k w Hk Hw) as (Hr & Ha & Hs).
    destruct (register point_name items w) as [w1 r1]. simpl in *. subst r1.
    destruct (IH w1 Ha) as (Hr' & Ha' & Hs').
    split; [exact Hr'|]. split; [exact Ha'|].
    rewrite Hs', Hs. now rewrite <- app_assoc.
Qed.

(** *** Frames *)

Lemma same_fs_refl (w : world) : same_fs w w.
Proof. reflexivity. Qed.

Lemma same_fs_trans (w1 w2 w3 : world) : same_fs w1 w2 -> same_fs w2 w3 -> same_fs w1 w3.
Proof. unfold same_fs. congruence. Qed.

Lemma same_phase_refl (w : world) : same_phase w w.
Proof. reflexivity. Qed.

Lemma same_phase_trans (w1 w2 w3 : world) :
  same_phase w1 w2 -> same_phase w2 w3 -> same_phase w1 w3.
Proof. unfold same_phase. congruence. Qed.

Lemma same_store_refl (n : string) (w : world) : same_store n w w.
Proof. reflexivity. Qed.

Lemma same_store_trans (n : string) (w1 w2 w3 : world) :
  same_store n w1 w2 -> same_store n w2 w3 -> same_store n w1 w3.
Proof. unfold same_store. congruence. Qed.

Lemma sealed_frame_refl (w : world) : sealed_frame w w.
Proof. intros _. reflexivity. Qed.

Lemma sealed_frame_trans (w1 w2 w3 : world) :
  sealed_frame w1 w2 -> sealed_frame w2 w3 -> sealed_frame w1 w3.
Proof.
  unfold sealed_frame. intros H12 H23 H1.
  specialize (H12 H1). rewrite <- H12 in H1.
  rewrite (H23 H1). exact H12.
Qed.

Lemma same_store_all (n : string) (w w' : world) :
  same_store n w w' -> store n w' = store n w.
Proof. unfold same_store, store, all. now intros ->. Qed.

Lemma same_phase_accepting (w w' : world) :
  same_phase w w' -> accepting w -> accepting w'.
Proof. unfold same_phase, accepting. now intros ->. Qed.

Create HintDb frame.

#[local] Hint Resolve same_fs_refl same_fs_trans same_phase_refl same_phase_trans
  same_store_refl same_store_trans sealed_frame_refl sealed_frame_trans : frame.

Lemma register_same_fs (point_name : string) (contributions : list value) :
  respects same_fs (register point_name contributions).
Proof. apply register_keeps_fs. Qed.

Lemma register_same_phase (point_name : string) (contributions : list value) :
  respects same_phase (register point_name contributions).
Proof.
  apply respects_register; eauto with frame. apply add_keeps_phase.
Qed.

Lemma register_same_store (point_name n : string) (contributions : list value) :
  n <> point_name -> respects (same_store n) (register point_name contributions).
Proof. apply register_keeps_other. Qed.

Lemma register_nil_respects (R : world -> world -> Prop) (point_name : string) :
  (forall w, R w w) -> respects R (register point_name []).
Proof. intros HR w. rewrite register_nil. apply HR. Qed.

(** *** Growth of one store along a sequence of statements *)

Lemma grows_bind (n : string) (i1 i2 items : list value) {A B : Type}
    (m : M A) (k : A -> M B) :
  items = i1 ++ i2 ->
  grows n i1 m -> (forall a, grows n i2 (k a)) -> grows n items (bind m k).
Proof.
  intros -> Hm Hk w Hw. destruct (Hm w Hw) as ([a Ha] & Hacc & Hs).
  unfold bind. destruct (m w) as [w1 r]. simpl in *. subst r.
  destruct (Hk a w1 Hacc) as (Hr' & Hacc' & Hs').
  split; [exact Hr'|]. split; [exact Hacc'|].
  rewrite Hs', Hs. now rewrite app_assoc.
Qed.

Lemma reaches_bind (n : string) (i1 i2 items : list value) {A B : Type}
    (m : M A) (k : A -> M B) :
  items = i1 ++ i2 ->
  grows n i1 m -> (forall a, reaches n i2 (k a)) -> reaches n items (bind m k).
Proof.
  intros -> Hm Hk w Hw. destruct (Hm w Hw) as ([a Ha] & Hacc & Hs).
  unfold bind. destruct (m w) as [w1 r]. simpl in *. subst r.
  rewrite (Hk a w1 Hacc), Hs. now rewrite app_assoc.
Qed.

Lemma reaches_respects (n : string) {A : Type} (m : M A) :
  respects (same_store n) m -> reaches n [] m.
Proof.
  intros Hm w _. rewrite app_nil_r. apply same_store_all, Hm.
Qed.

Lemma grows_register (name : string) (items : list value) (k : merge_kind) :
  merge_kind_of extension_points name = Some k ->
  grows name items (register name items).
Proof.
  intros Hk w Hw. destruct (register_accepting name items k w Hk Hw) as (Hr & Ha & Hs).
  split; [eauto|]. split; assumption.
Qed.

Lemma grows_register_other (n name : string) (items : list value) (k : merge_kind) :
  merge_kind_of extension_points name = Some k ->
  n <> name ->
  grows n [] (register name items).
Proof.
  intros Hk Hn w Hw. destruct (register_accepting name items k w Hk Hw) as (Hr & Ha & _).
  split; [eauto|]. split; [assumption|].
  rewrite app_nil_r. apply same_store_all. now apply register_same_store.
Qed.

Lemma grows_ret (n : string) {A : Type} (a : A) : grows n [] (ret a).
Proof.
  intros w Hw. split; [now exists a|]. split; [exact Hw|].
  simpl. now rewrite app_nil_r.
Qed.

(** *** Reading *)

Lemma open_read_text (path text : string) (w : world) :
  read_text (w_fs w) path = Some text -> open_read path w = (w, Ok text).
Proof.
  unfold read_text, open_read.
  destruct (w_fs w !! path) as [[[s| |]|names]|]; intros H; try discriminate.
  now injection H as ->.
Qed.

Lemma open_read_missing (path : string) (w : world) :
  w_fs w !! path = None -> open_read path w = (w, Raise (FileNotFoundError path)).
Proof. intros H. unfold open_read. now rewrite H. Qed.

(** Reading never changes the world. *)
Lemma open_read_world (path : string) (w : world) : fst (open_read path w) = w.
Proof.
  unfold open_read. now destruct (w_fs w !! path) as [[[s| |]|names]|].
Qed.

(** What is read depends on the file system only. *)
Lemma open_read_fs (path : string) (w w' : world) :
  w_fs w' = w_fs w -> snd (open_read path w') = snd (open_read path w).
Proof.
  intros H. unfold open_read. rewrite H.
  now destruct (w_fs w !! path) as [[[s| |]|names]|].
Qed.

Lemma filter_all_true {A : Type} (f : A -> bool) (l : list A) :
  (forall x, f x = true) -> List.filter f l = l.
Proof.
  intros H. induction l as [|x l IH]; simpl; [reflexivity|].
  now rewrite H, IH.
Qed.

Lemma append_sep_ne (d name : string) : d +:+ "/" +:+ name <> d.
Proof.
  induction d as [|c d IH].
  - rewrite append_nil, append_cons. discriminate.
  - rewrite (append_cons c d). intros H. injection H as H. now apply IH.
Qed.

(** [glob(d + "/*")] searches [d], or the directories [d] expands to when
    it holds wildcards, and lists the visible entries of each, joined to
    it, in listing order. *)
Lemma glob_wildcard (iglob_dirs : string -> list string) (fs : gmap string node)
    (d : string) :
  is_empty d = false -> endswith_sep d = false ->
  glob iglob_dirs fs (os_path_join d ["*"]) =
  flat_map (fun d' => List.map (join_step d') (visible_names fs d'))
    (if has_magic d then iglob_dirs d else [d]).
Proof.
  intros Hd He. unfold os_path_join. simpl fold_left.
  rewrite (join_step_plain d "*" Hd He) by reflexivity.
  unfold glob. rewrite (os_path_split_join d "*" Hd He) by reflexivity.
  assert (Hne : String.eqb d (d +:+ "/" +:+ "*") = false).
  { apply String.eqb_neq. intros H. symmetry in H. now apply append_sep_ne in H. }
  rewrite Hne. simpl negb. simpl andb.
  apply List.flat_map_ext. intros d'.
  unfold glob1, visible_names. simpl ishidden. cbv iota.
  rewrite (filter_all_true (fnmatch "*")) by apply fnmatch_star.
  reflexivity.
Qed.

(** With no wildcard in [d], [glob(d + "/*")] lists the visible entries of
    [d], each joined to [d], in listing order. *)
Lemma glob_star (iglob_dirs : string -> list string) (fs : gmap string node)
    (d : string) :
  is_empty d = false -> endswith_sep d = false -> has_magic d = false ->
  glob iglob_dirs fs (os_path_join d ["*"]) =
  List.map (join_step d) (visible_names fs d).
Proof.
  intros Hd He Hm. rewrite (glob_wildcard iglob_dirs fs d Hd He), Hm.
  simpl. apply app_nil_r.
Qed.

Lemma basename_join_step (d name : string) :
  is_empty d = false -> endswith_sep d = false -> plain_name name ->
  basename (join_step d name) = name.
Proof.
  intros Hd He Hn. rewrite (join_step_plain d name Hd He Hn).
  now apply basename_app_sep.
Qed.

Lemma plain_visible (fs : gmap string node) (d : string) :
  Forall plain_name (listdir fs d) -> Forall plain_name (visible_names fs d).
Proof.
  unfold visible_names. induction 1 as [|x l Hx Hl IH]; simpl; [constructor|].
  destruct (negb (ishidden x)); [constructor|]; assumption.
Qed.

Lemma map_basename_join (d : string) (names : list string) :
  is_empty d = false -> endswith_sep d = false -> Forall plain_name names ->
  List.map basename (List.map (join_step d) names) = names.
Proof.
  intros Hd He. induction 1 as [|x l Hx Hl IH]; simpl; [reflexivity|].
  now rewrite basename_join_step, IH.
Qed.

(** ** Loops that read a file and add a contribution *)

Lemma open_read_unreadable (path : string) (w : world) :
  read_text (w_fs w) path = None ->
  exists e, open_read path w = (w, Raise e) /\ is_resource_resolution_error e = true.
Proof.
  unfold read_text, open_read.
  destruct (w_fs w !! path) as [[[s| |]|names]|]; intros H; try discriminate;
    eexists; split; reflexivity.
Qed.

Lemma for_each_ext {A : Type} (f g : A -> M unit) (l : list A) (w : world) :
  (forall x w', f x w' = g x w') -> for_each f l w = for_each g l w.
Proof.
  intros H. revert w. induction l as [|x l IH]; intros w; [reflexivity|].
  simpl. unfold bind. rewrite H. destruct (g x w) as [w1 [[]|e]]; [apply IH | reflexivity].
Qed.

Section ReadingLoop.

Context {A : Type} (name : string) (kind : merge_kind)
  (path : A -> string) (item : A -> string -> value) (body : A -> M unit).

Hypothesis name_known : merge_kind_of extension_points name = Some kind.

Hypothesis body_reads_then_adds :
  forall x w, body x w = (text <- open_read (path x) ;; add_item name (item x text)) w.

Lemma body_readable (x : A) (text : string) (w : world) :
  accepting w ->
  read_text (w_fs w) (path x) = Some text ->
  snd (body x w) = Ok tt /\
  accepting (fst (body x w)) /\
  w_fs (fst (body x w)) = w_fs w /\
  store name (fst (body x w)) = store name w ++ [item x text].
Proof.
  intros Hw Ht. rewrite body_reads_then_adds.
  rewrite (bind_ok _ _ w w text (open_read_text _ _ w Ht)).
  unfold add_item, add_items.
  destruct (register_accepting name [item x text] kind w name_known Hw) as (Hr & Ha & Hs).
  split; [exact Hr|]. split; [exact Ha|]. split; [apply register_same_fs | exact Hs].
Qed.

Lemma body_unreadable (x : A) (w : world) :
  read_text (w_fs w) (path x) = None ->
  exists e, body x w = (w, Raise e) /\
            snd (open_read (path x) w) = Raise e /\
            is_resource_resolution_error e = true.
Proof.
  intros Hn. destruct (open_read_unreadable _ w Hn) as (e & He & Hres).
  exists e. rewrite body_reads_then_adds, (bind_raise _ _ w w e He).
  rewrite He. auto.
Qed.


(** How far the loop gets while the process accepts contributions: it
    adds the contributions of the readable prefix, in order, and either
    reaches the end or raises what reading the first unreadable file
    raises. *)
Lemma reading_loop_outcome (xs : list A) (w : world) :
  accepting w ->
  accepting (fst (for_each body xs w)) /\
  w_fs (fst (for_each body xs w)) = w_fs w /\
  store name (fst (for_each body xs w)) =
    store name w ++
    List.map (fun xt => item (fst xt) (snd xt)) (readable_prefix (w_fs w) path xs) /\
  match first_unreadable (w_fs w) path xs with
  | None => snd (for_each body xs w) = Ok tt
  | Some x =>
      exists e, snd (for_each body xs w) = Raise e /\
                snd (open_read (path x) w) = Raise e /\
                is_resource_resolution_error e = true
  end.
Proof.
  revert w. induction xs as [|x xs IH]; intros w Hw.
  - simpl. rewrite app_nil_r. auto.
  - simpl for_each. simpl readable_prefix. simpl first_unreadable. unfold bind.
    destruct (read_text (w_fs w) (path x)) as [text|] eqn:E.
    + destruct (body_readable x text w Hw E) as (Hr & Ha & Hfs & Hs).
      destruct (body x w) as [w1 r1]. simpl in Hr, Ha, Hfs, Hs. subst r1.
      destruct (IH w1 Ha) as (Ha' & Hfs' & Hs' & Hout). rewrite Hfs in *.
      split; [exact Ha'|]. split; [congruence|]. split.
      * rewrite Hs', Hs. simpl. now rewrite <- app_assoc.
      * destruct (first_unreadable (w_fs w) path xs) as [x'|]; [|exact Hout].
        destruct Hout as (e & He & Hopen & Hres). exists e.
        split; [exact He|]. split; [|exact Hres].
        now rewrite <- (open_read_fs (path x') w w1 Hfs).
    + destruct (body_unreadable x w E) as (e & He & Hopen & Hres).
      rewrite He. simpl. rewrite app_nil_r.
      split; [exact Hw|]. split; [reflexivity|]. split; [reflexivity|].
      now exists e.
Qed.


(** With every file readable the contributions are those of all the
    elements, each with the text of its file. *)
Lemma readable_prefix_all (fs : gmap string node) (xs : list A) :
  first_unreadable fs path xs = None ->
  List.map (fun xt => item (fst xt) (snd xt)) (readable_prefix fs path xs) =
  List.map (fun x => item x (default EmptyString (read_text fs (path x)))) xs.
Proof.
  induction xs as [|x xs IH]; simpl; [reflexivity|].
  destruct (read_text fs (path x)) as [text|]; [|discriminate].
  intros H. simpl. now rewrite IH.
Qed.

Lemma readable_prefix_elements (fs : gmap string node) (xs : list A) :
  Forall (fun xt => In (fst xt) xs /\ read_text fs (path (fst xt)) = Some (snd xt))
    (readable_prefix fs path xs).
Proof.
  induction xs as [|x xs IH]; simpl; [constructor|].
  destruct (read_text fs (path x)) as [text|] eqn:E; [|constructor].
  constructor; [simpl; auto|].
  eapply Forall_impl; [exact IH|]. simpl. intros xt [Hin Hr]. auto.
Qed.

End ReadingLoop.

Lemma for_each_map {A B : Type} (f : A -> B) (body : B -> M unit) (l : list A) (w : world) :
  for_each body (List.map f l) w = for_each (fun x => body (f x)) l w.
Proof.
  revert w. induction l as [|x l IH]; intros w; [reflexivity|].
  simpl. unfold bind. destruct (body (f x) w) as [w1 [[]|e]]; [apply IH | reflexivity].
Qed.

Lemma readable_prefix_ext {A : Type} (fs : gmap string node) (p q : A -> string)
    (xs : list A) :
  Forall (fun x => p x = q x) xs ->
  readable_prefix fs p xs = readable_prefix fs q xs /\
  first_unreadable fs p xs = first_unreadable fs q xs.
Proof.
  induction 1 as [|x xs Hx Hxs [IH1 IH2]]; simpl; [auto|].
  rewrite Hx, IH1, IH2. auto.
Qed.

Lemma readable_prefix_fs {A : Type} (fs fs' : gmap string node) (p : A -> string)
    (xs : list A) :
  (forall x, read_text fs (p x) = read_text fs' (p x)) ->
  readable_prefix fs p xs = readable_prefix fs' p xs /\
  first_unreadable fs p xs = first_unreadable fs' p xs.
Proof.
  intros H. induction xs as [|x xs [IH1 IH2]]; simpl; [auto|].
  rewrite H, IH1, IH2. auto.
Qed.

Lemma first_unreadable_None {A : Type} (fs : gmap string node) (p : A -> string)
    (xs : list A) :
  first_unreadable fs p xs = None <-> Forall (fun x => read_text fs (p x) <> None) xs.
Proof.
  induction xs as [|x xs IH]; simpl.
  - split; [constructor | reflexivity].
  - destruct (read_text fs (p x)) eqn:E.
    + rewrite IH. split; [intros H; constructor; [congruence | exact H]|].
      intros H. now apply Forall_cons in H as [_ H].
    + split; [discriminate|]. intros H. apply Forall_cons in H as [H _]. congruence.
Qed.

(** The elements the loop gets through are the first of the list. *)
Lemma readable_prefix_is_prefix {A : Type} (fs : gmap string node) (p : A -> string)
    (xs : list A) :
  exists rest, xs = List.map fst (readable_prefix fs p xs) ++ rest.
Proof.
  induction xs as [|x xs [rest IH]]; simpl; [now exists []|].
  destruct (read_text fs (p x)).
  - exists rest. simpl. now rewrite <- IH.
  - now exists (x :: xs).
Qed.

(** With every file readable the loop visits every element. *)
Lemma readable_prefix_whole {A : Type} (fs : gmap string node) (p : A -> string)
    (xs : list A) :
  first_unreadable fs p xs = None -> List.map fst (readable_prefix fs p xs) = xs.
Proof.
  induction xs as [|x xs IH]; simpl; [reflexivity|].
  destruct (read_text fs (p x)); [|discriminate].
  intros H. simpl. now rewrite IH.
Qed.

(** ** The module *)

Ltac frame_solve :=
  repeat first
    [ progress (unfold add_item, add_items)
    | apply respects_ret; solve [eauto with frame]
    | apply respects_open_read; solve [eauto with frame]
    | apply respects_glob_paths; solve [eauto with frame]
    | apply register_nil_respects; solve [eauto with frame]
    | apply register_same_fs
    | apply register_same_phase
    | apply register_same_store; discriminate
    | apply respects_for_each; [solve [eauto with frame] | solve [eauto with frame] | intros ?]
    | apply respects_bind; [solve [eauto with frame] | | intros ?] ].

Section PluginProperties.

Variable __version__ : string.
Variable module_path : string -> string.
Variable iglob_dirs : string -> list string.

Lemma patches_dir_shape :
  is_empty (patches_dir module_path) = false /\
  endswith_sep (patches_dir module_path) = false.
Proof.
  unfold patches_dir, resource_filename. simpl is_empty. cbv iota.
  change (split_sep "patches") with ["patches"].
  unfold os_path_join. simpl fold_left. unfold join_step. simpl startswith_sep.
  cbv iota.
  destruct (is_empty (module_path "tutorevent_bus_redis")
            || endswith_sep (module_path "tutorevent_bus_redis")).
  - split; [now apply is_empty_false_app | now rewrite endswith_sep_app].
  - split.
    + apply is_empty_false_app. now apply is_empty_false_app.
    + rewrite endswith_sep_app; [|now apply is_empty_false_app].
      now rewrite endswith_sep_app.
Qed.

Lemma has_magic_app (s t : string) :
  has_magic (s +:+ t) = has_magic s || has_magic t.
Proof.
  induction s as [|c s IH]; push_append; simpl; [reflexivity|].
  rewrite IH. now rewrite !orb_assoc.
Qed.

(** The pathname the patch loop passes to [glob] always has a directory
    part, the patches directory, and a wildcard as its last component:
    [glob] takes neither of its early returns on it. *)
Lemma patch_pattern_shape :
  has_magic (os_path_join (patches_dir module_path) ["*"]) = true /\
  os_path_split (os_path_join (patches_dir module_path) ["*"]) =
    (patches_dir module_path, "*") /\
  is_empty (patches_dir module_path) = false.
Proof.
  destruct patches_dir_shape as [Hd He].
  unfold os_path_join. simpl fold_left.
  rewrite (join_step_plain _ "*" Hd He) by reflexivity.
  split; [|split; [|exact Hd]].
  - rewrite !has_magic_app. simpl. now rewrite !orb_true_r.
  - now apply os_path_split_join.
Qed.

(** The paths the patch loop visits, when the path of the patches
    directory holds no wildcard. *)
Lemma glob_patches (fs : gmap string node) :
  has_magic (patches_dir module_path) = false ->
  glob iglob_dirs fs (os_path_join (patches_dir module_path) ["*"]) =
  List.map (join_step (patches_dir module_path)) (visible_names fs (patches_dir module_path)).
Proof. destruct patches_dir_shape as [Hd He]. now apply glob_star. Qed.

Lemma patch_body_same_fs (path : string) : respects same_fs (patch_body path).
Proof. unfold patch_body. frame_solve. Qed.

Lemma patch_body_same_phase (path : string) : respects same_phase (patch_body path).
Proof. unfold patch_body. frame_solve. Qed.

(** One round of the patch loop on a readable file. *)
Lemma patch_body_text (path text : string) (w : world) :
  accepting w ->
  read_text (w_fs w) path = Some text ->
  snd (patch_body path w) = Ok tt /\
  accepting (fst (patch_body path w)) /\
  store Filters.ENV_PATCHES (fst (patch_body path w)) =
    store Filters.ENV_PATCHES w ++ [patch_item (basename path) text].
Proof.
  intros Hw Ht. unfold patch_body.
  rewrite (bind_ok _ _ w w text (open_read_text path text w Ht)).
  unfold add_item, add_items.
  now apply (register_accepting Filters.ENV_PATCHES _ OrderedAppend).
Qed.

(** The patch loop over readable files: one contribution for each, in
    the order of the paths. *)
Lemma for_each_patch_body (paths texts : list string) (w : world) :
  accepting w ->
  Forall2 (fun p t => read_text (w_fs w) p = Some t) paths texts ->
  snd (for_each patch_body paths w) = Ok tt /\
  accepting (fst (for_each patch_body paths w)) /\
  store Filters.ENV_PATCHES (fst (for_each patch_body paths w)) =
    store Filters.ENV_PATCHES w ++
    zip_with (fun p t => patch_item (basename p) t) paths texts.
Proof.
  intros Hw H. revert w Hw H.
  induction paths as [|p paths IH] in texts |- *; intros w Hw H.
  - apply Forall2_nil_inv_l in H as ->. simpl. rewrite app_nil_r. auto.
  - apply Forall2_cons_inv_l in H as (t & texts' & Ht & Hrest & ->).
    destruct (patch_body_text p t w Hw Ht) as (Hr & Ha & Hs).
    pose proof (patch_body_same_fs p w) as Hfs. unfold same_fs in Hfs.
    simpl for_each. unfold bind.
    destruct (patch_body p w) as [w1 r1]. simpl in Hr, Ha, Hs, Hfs. subst r1.
    rewrite <- Hfs in Hrest.
    destruct (IH texts' w1 Ha Hrest) as (Hr' & Ha' & Hs').
    split; [exact Hr'|]. split; [exact Ha'|].
    rewrite Hs', Hs. simpl. now rewrite <- app_assoc.
Qed.

Lemma load_patches_same_fs : respects same_fs (load_patches module_path iglob_dirs).
Proof. unfold load_patches, patch_body. frame_solve. Qed.

Lemma load_patches_same_phase : respects same_phase (load_patches module_path iglob_dirs).
Proof. unfold load_patches, patch_body. frame_solve. Qed.

Lemma load_patches_same_store (n : string) :
  n <> Filters.ENV_PATCHES -> respects (same_store n) (load_patches module_path iglob_dirs).
Proof.
  intros Hn. unfold load_patches, patch_body.
  apply respects_bind; [eauto with frame | frame_solve |].
  intros paths. apply respects_for_each; eauto with frame.
  intros p. apply respects_bind; [eauto with frame | frame_solve |].
  intros t. now apply register_same_store.
Qed.

Lemma init_task_body_same_fs (task : string * list string) :
  respects same_fs (init_task_body module_path task).
Proof. destruct task. unfold init_task_body. frame_solve. Qed.

Lemma plugin_same_fs : respects same_fs (plugin __version__ module_path iglob_dirs).
Proof.
  unfold plugin, load_init_tasks, MY_INIT_TASKS, load_patches, patch_body.
  frame_solve.
Qed.

Lemma plugin_same_phase : respects same_phase (plugin __version__ module_path iglob_dirs).
Proof.
  unfold plugin, load_init_tasks, MY_INIT_TASKS, load_patches, patch_body.
  frame_solve.
Qed.

Lemma plugin_same_store (n : string) :
  In n empty_contributions ->
  respects (same_store n) (plugin __version__ module_path iglob_dirs).
Proof.
  intros Hn. unfold plugin, load_init_tasks, MY_INIT_TASKS.
  simpl in Hn.
  destruct Hn as [<-|[<-|[<-|[<-|[<-|[]]]]]];
    (repeat (apply respects_bind; [eauto with frame | frame_solve | intros _]));
    apply load_patches_same_store; discriminate.
Qed.

(** The patch loop is a loop over the paths [glob] returns. *)
Lemma load_patches_paths (w : world) :
  load_patches module_path iglob_dirs w =
  for_each patch_body
    (glob iglob_dirs (w_fs w) (os_path_join (patches_dir module_path) ["*"])) w.
Proof. reflexivity. Qed.

(** The outcome of the patch loop, on whatever paths [glob] returns. *)
Lemma load_patches_raw (w : world) :
  accepting w ->
  accepting (fst (load_patches module_path iglob_dirs w)) /\
  w_fs (fst (load_patches module_path iglob_dirs w)) = w_fs w /\
  store Filters.ENV_PATCHES (fst (load_patches module_path iglob_dirs w)) =
    store Filters.ENV_PATCHES w ++
    List.map patch_of_path
      (readable_prefix (w_fs w) id
         (glob iglob_dirs (w_fs w) (os_path_join (patches_dir module_path) ["*"]))) /\
  match first_unreadable (w_fs w) id
          (glob iglob_dirs (w_fs w) (os_path_join (patches_dir module_path) ["*"])) with
  | None => snd (load_patches module_path iglob_dirs w) = Ok tt
  | Some p =>
      exists e, snd (load_patches module_path iglob_dirs w) = Raise e /\
                snd (open_read p w) = Raise e /\
                is_resource_resolution_error e = true
  end.
Proof.
  intros Hw. rewrite load_patches_paths.
  apply (reading_loop_outcome Filters.ENV_PATCHES OrderedAppend id
           (fun p t => patch_item (basename p) t) patch_body eq_refl);
    [reflexivity | exact Hw].
Qed.

(** With no wildcard in the path of the patches directory, the patch
    loop is a loop over the visible entries of that directory. *)
Lemma load_patches_names (w : world) :
  has_magic (patches_dir module_path) = false ->
  load_patches module_path iglob_dirs w =
  for_each (fun n => patch_body (join_step (patches_dir module_path) n))
    (visible_names (w_fs w) (patches_dir module_path)) w.
Proof.
  intros Hm. rewrite load_patches_paths, (glob_patches _ Hm). apply for_each_map.
Qed.

Lemma child_of_plain (names : list string) :
  Forall plain_name names ->
  Forall (fun n => join_step (patches_dir module_path) n = child (patches_dir module_path) n)
    names.
Proof.
  destruct patches_dir_shape as [Hd He].
  intros H. eapply Forall_impl; [exact H|].
  intros n Hn. now apply join_step_plain.
Qed.

Lemma patch_items_plain (fs : gmap string node) (names : list string) :
  Forall plain_name names ->
  List.map (fun nt => patch_item (basename (join_step (patches_dir module_path) (fst nt)))
                        (snd nt))
    (readable_prefix fs (child (patches_dir module_path)) names) =
  List.map patch_of (readable_prefix fs (child (patches_dir module_path)) names).
Proof.
  intros Hp. destruct patches_dir_shape as [Hd He].
  apply List.map_ext_in. intros [n t] Hin. unfold patch_of. simpl.
  pose proof (readable_prefix_elements (child (patches_dir module_path)) fs names) as Hel.
  rewrite List.Forall_forall in Hel. destruct (Hel _ Hin) as [Hn _]. simpl in Hn.
  rewrite List.Forall_forall in Hp. now rewrite basename_join_step by auto.
Qed.

(** The outcome of the patch loop on the entry names, when the path of
    the patches directory holds no wildcard. *)
Lemma load_patches_outcome (w : world) :
  has_magic (patches_dir module_path) = false ->
  accepting w ->
  Forall plain_name (listdir (w_fs w) (patches_dir module_path)) ->
  store Filters.ENV_PATCHES (fst (load_patches module_path iglob_dirs w)) =
    store Filters.ENV_PATCHES w ++
    List.map patch_of
      (readable_prefix (w_fs w) (child (patches_dir module_path))
         (visible_names (w_fs w) (patches_dir module_path))) /\
  match first_unreadable (w_fs w) (child (patches_dir module_path))
          (visible_names (w_fs w) (patches_dir module_path)) with
  | None => snd (load_patches module_path iglob_dirs w) = Ok tt
  | Some n =>
      exists e, snd (load_patches module_path iglob_dirs w) = Raise e /\
                snd (open_read (child (patches_dir module_path) n) w) = Raise e /\
                is_resource_resolution_error e = true
  end.
Proof.
  intros Hm Hw Hplain. apply plain_visible in Hplain.
  rewrite (load_patches_names w Hm).
  destruct (reading_loop_outcome Filters.ENV_PATCHES OrderedAppend
              (join_step (patches_dir module_path))
              (fun n t => patch_item (basename (join_step (patches_dir module_path) n)) t)
              (fun n => patch_body (join_step (patches_dir module_path) n))
              eq_refl (fun _ _ => eq_refl)
              (visible_names (w_fs w) (patches_dir module_path)) w Hw)
    as (_ & _ & Hs & Hout).
  destruct (readable_prefix_ext (w_fs w) _ _ _ (child_of_plain _ Hplain)) as [E1 E2].
  rewrite E1 in Hs. rewrite E2 in Hout. rewrite patch_items_plain in Hs by assumption.
  split; [exact Hs|].
  destruct (first_unreadable (w_fs w) (child (patches_dir module_path))
              (visible_names (w_fs w) (patches_dir module_path))) as [n|] eqn:E;
    [|exact Hout].
  destruct Hout as (e & He & Hopen & Hres). exists e.
  split; [exact He|]. split; [|exact Hres].
  assert (Hn : plain_name n).
  { clear -E Hplain. induction Hplain as [|x xs Hx Hxs IH]; simpl in E; [discriminate|].
    destruct (read_text (w_fs w) (child (patches_dir module_path) x)).
    - now apply IH.
    - now injection E as <-. }
  destruct patches_dir_shape as [Hd Hend].
  unfold child. now rewrite <- (join_step_plain _ n Hd Hend Hn).
Qed.

(** C8, as the code has it: the patch loop visits the paths the glob
    matches in order and stops at the first that cannot be read as
    text.  Every path before that one gives exactly one contribution to
    the patches store, the pair of the basename of the path and the
    text of the file as read when the loop runs; the first unreadable
    path makes the loop raise, and it and the paths after it give none.
    When every matched path is readable, every one gives its
    contribution.  What is stored is the text, so a later file system
    does not change it. *)
Theorem patch_contribution_per_file (w : world) :
  let paths := glob iglob_dirs (w_fs w) (os_path_join (patches_dir module_path) ["*"]) in
  let read := readable_prefix (w_fs w) id paths in
  let w' := fst (load_patches module_path iglob_dirs w) in
  accepting w ->
  store Filters.ENV_PATCHES w' =
    store Filters.ENV_PATCHES w ++ List.map patch_of_path read /\
  Forall (fun pt => In (fst pt) paths /\ read_text (w_fs w) (fst pt) = Some (snd pt)) read /\
  (exists rest, paths = List.map fst read ++ rest) /\
  match first_unreadable (w_fs w) id paths with
  | None =>
      snd (load_patches module_path iglob_dirs w) = Ok tt /\ List.map fst read = paths
  | Some p =>
      exists e, snd (load_patches module_path iglob_dirs w) = Raise e /\
                snd (open_read p w) = Raise e /\
                is_resource_resolution_error e = true
  end /\
  (forall texts,
      Forall2 (fun p t => read_text (w_fs w) p = Some t) paths texts ->
      snd (load_patches module_path iglob_dirs w) = Ok tt /\
      store Filters.ENV_PATCHES w' =
        store Filters.ENV_PATCHES w ++
        zip_with (fun p t => patch_item (basename p) t) paths texts /\
      length (zip_with (fun p t => patch_item (basename p) t) paths texts) = length paths) /\
  (forall fs', store Filters.ENV_PATCHES (MkWorld fs' (w_hooks w')) =
               store Filters.ENV_PATCHES w').
Proof.
  intros paths read w' Hw.
  destruct (load_patches_raw w Hw) as (_ & _ & Hs & Hout).
  fold paths in Hs, Hout. fold read in Hs.
  split; [exact Hs|]. split; [apply (readable_prefix_elements id)|].
  split; [apply readable_prefix_is_prefix|]. split.
  - destruct (first_unreadable (w_fs w) id paths) eqn:E; [exact Hout|].
    split; [exact Hout|]. now apply readable_prefix_whole.
  - split; [|reflexivity]. intros texts Hread.
    destruct (for_each_patch_body paths texts w Hw Hread) as (Hr & _ & Hs').
    unfold w'. rewrite load_patches_paths. fold paths.
    split; [exact Hr|]. split; [exact Hs'|].
    rewrite length_zip_with. apply Forall2_length in Hread. lia.
Qed.



(** One round of the loop over the init tasks: it raises an error of
    resource resolution and leaves the world, or it returns and the
    world still accepts contributions over the same file system. *)
Lemma init_task_body_outcome (task : string * list string) (w : world) :
  accepting w ->
  (exists e, init_task_body module_path task w = (w, Raise e) /\
             is_resource_resolution_error e = true) \/
  (snd (init_task_body module_path task w) = Ok tt /\
   accepting (fst (init_task_body module_path task w)) /\
   w_fs (fst (init_task_body module_path task w)) = w_fs w).
Proof.
  intros Hw. destruct task as [service template_path]. unfold init_task_body.
  set (full_path := resource_filename module_path "tutorevent_bus_redis"
                      (os_path_join "templates" template_path)).
  destruct (w_fs w !! full_path) as [[[text| |]|names]|] eqn:E.
  - right.
    assert (Hread : open_read full_path w = (w, Ok text)).
    { apply open_read_text. unfold read_text. now rewrite E. }
    rewrite (bind_ok _ _ w w text Hread). unfold add_item, add_items.
    destruct (register_accepting Filters.CLI_DO_INIT_TASKS
                [VTuple [VStr service; VStr text]] OrderedAppend w eq_refl Hw)
      as (Hr & Ha & _).
    split; [exact Hr|]. split; [exact Ha|]. apply register_same_fs.
  - left. exists (UnicodeDecodeError full_path). split; [|reflexivity].
    apply bind_raise. unfold open_read. now rewrite E.
  - left. exists (PermissionError full_path). split; [|reflexivity].
    apply bind_raise. unfold open_read. now rewrite E.
  - left. exists (IsADirectoryError full_path). split; [|reflexivity].
    apply bind_raise. unfold open_read. now rewrite E.
  - left. exists (FileNotFoundError full_path). split; [|reflexivity].
    apply bind_raise. unfold open_read. now rewrite E.
Qed.

(** A task list that holds an entry whose script does not exist never
    loads: the loop raises an error of resource resolution, at that
    entry or before it. *)
Lemma load_init_tasks_missing (fs : gmap string node) (service : string)
    (template_path : list string) (tasks : list (string * list string)) (w : world) :
  fs !! resource_filename module_path "tutorevent_bus_redis"
          (os_path_join "templates" template_path) = None ->
  In (service, template_path) tasks ->
  accepting w -> w_fs w = fs ->
  exists e, snd (load_init_tasks module_path tasks w) = Raise e /\
            is_resource_resolution_error e = true.
Proof.
  intros Hmissing. unfold load_init_tasks. revert w.
  induction tasks as [|task tasks IH]; intros w Hin Hw Hfs; [destruct Hin|].
  simpl for_each. unfold bind.
  destruct (init_task_body_outcome task w Hw) as [(e & He & Hres) | (Hr & Ha & Hfs')].
  - rewrite He. now exists e.
  - destruct Hin as [-> | Hin].
    + exfalso. unfold init_task_body in Hr.
      erewrite bind_raise in Hr; [discriminate|].
      apply open_read_missing. now rewrite Hfs.
    + destruct (init_task_body module_path task w) as [w1 r1]. simpl in *. subst r1.
      apply IH; [exact Hin | exact Ha | congruence].
Qed.

(** C4, as the code has it: when the loop over the init tasks stands at
    an entry whose script does not exist, it raises at once, an error of resource
    resolution, and the world is the one it found: nothing is added for
    that entry nor for the ones after it.  After earlier entries that
    loaded, the world is the one they left; and wherever such an entry
    stands in the task list, the loop raises an error of resource
    resolution. *)
Theorem missing_init_task_is_fatal (w : world) (service : string)
    (template_path : list string) (rest : list (string * list string)) :
  let full_path :=
    resource_filename module_path "tutorevent_bus_redis"
      (os_path_join "templates" template_path) in
  w_fs w !! full_path = None ->
  load_init_tasks module_path ((service, template_path) :: rest) w =
    (w, Raise (FileNotFoundError full_path)) /\
  is_resource_resolution_error (FileNotFoundError full_path) = true /\
  store Filters.CLI_DO_INIT_TASKS
    (fst (load_init_tasks module_path ((service, template_path) :: rest) w)) =
    store Filters.CLI_DO_INIT_TASKS w /\
  (forall earlier w0,
      load_init_tasks module_path earlier w0 = (w, Ok tt) ->
      load_init_tasks module_path (earlier ++ (service, template_path) :: rest) w0 =
        (w, Raise (FileNotFoundError full_path))) /\
  (forall tasks,
      In (service, template_path) tasks ->
      accepting w ->
      exists e, snd (load_init_tasks module_path tasks w) = Raise e /\
                is_resource_resolution_error e = true).
Proof.
  intros full_path Hmissing.
  assert (Hhere : load_init_tasks module_path ((service, template_path) :: rest) w =
                  (w, Raise (FileNotFoundError full_path))).
  { unfold load_init_tasks. simpl for_each. unfold bind at 1.
    unfold init_task_body. fold full_path.
    now rewrite (bind_raise _ _ w w _ (open_read_missing full_path w Hmissing)). }
  split; [exact Hhere|]. split; [reflexivity|]. split; [now rewrite Hhere|].
  split.
  - intros earlier w0 Hearlier. unfold load_init_tasks in *.
    now rewrite for_each_app, Hearlier.
  - intros tasks Hin Hw.
    now apply (load_init_tasks_missing (w_fs w) service template_path).
Qed.

(** C10: each of the five calls passes the empty list, which returns
    and changes nothing, and after the module, returned or raised, the
    five stores are as they were. *)
Theorem empty_contributions_unchanged (w : world) :
  Forall (fun n =>
            add_items n [] w = (w, Ok tt) /\
            reg_stores (w_hooks (fst (plugin __version__ module_path iglob_dirs w))) !! n =
              reg_stores (w_hooks w) !! n)
    empty_contributions.
Proof.
  apply Forall_forall. intros n Hn. apply list_elem_of_In in Hn. split.
  - simpl in Hn. now destruct Hn as [<-|[<-|[<-|[<-|[<-|[]]]]]].
  - now apply plugin_same_store.
Qed.

(** *** The merge pass over what the module registered *)

Lemma as_pair_pair_value (kv : string * value) : as_pair (pair_value kv) = Some kv.
Proof. now destruct kv. Qed.

Lemma mapM_as_pair (items : list (string * value)) :
  mapM as_pair (List.map pair_value items) = Some items.
Proof.
  apply mapM_Some_2. induction items as [|kv items IH]; simpl; constructor.
  - apply as_pair_pair_value.
  - exact IH.
Qed.

Lemma last_write_app (k : string) (l1 l2 : list (string * value)) :
  last_write k (l1 ++ l2) =
  match last_write k l2 with
  | Some v => Some v
  | None => last_write k l1
  end.
Proof.
  induction l1 as [|[k' v] l1 IH]; simpl.
  - now destruct (last_write k l2).
  - rewrite IH. now destruct (last_write k l2).
Qed.

(** Folding the contributions into a mapping leaves, at each key, the
    last value written for it. *)
Lemma fold_insert_lookup (items : list (string * value)) (m : gmap string value)
    (k : string) :
  fold_left (fun m kv => <[fst kv := snd kv]> m) items m !! k =
  match last_write k items with
  | Some v => Some v
  | None => m !! k
  end.
Proof.
  revert m. induction items as [|[k' v] items IH]; intros m; simpl; [reflexivity|].
  rewrite IH. destruct (last_write k items); [reflexivity|].
  destruct (String.eqb_spec k' k) as [->|Hne].
  - apply lookup_insert_eq.
  - now apply lookup_insert_ne.
Qed.

Lemma merge_override_lookup (items : list (string * value)) (k : string) :
  merge_override items !! k = last_write k items.
Proof.
  unfold merge_override. rewrite fold_insert_lookup.
  destruct (last_write k items); [reflexivity | apply lookup_empty].
Qed.

Lemma effective_mapping_pairs (name : string) (w : world) (items : list (string * value)) :
  store name w = List.map pair_value items ->
  effective_mapping name (w_hooks w) = Some (merge_override items).
Proof.
  unfold store, effective_mapping. intros ->. now rewrite mapM_as_pair.
Qed.

Lemma concat_map_map {A B : Type} (f : A -> B) (ls : list (list A)) :
  concat (List.map (List.map f) ls) = List.map f (concat ls).
Proof.
  induction ls as [|l ls IH]; simpl; [reflexivity|].
  now rewrite IH, List.map_app.
Qed.

Ltac reach_step :=
  lazymatch goal with
  | |- reaches ?n ?items (bind (add_items ?n ?its) _) =>
      apply (reaches_bind n its [] items);
      [ symmetry; apply app_nil_r
      | eapply grows_register; reflexivity
      | intros _ ]
  | |- reaches ?n ?items (bind (add_items _ _) _) =>
      apply (reaches_bind n [] items items);
      [ reflexivity
      | eapply grows_register_other; [reflexivity | discriminate]
      | intros _ ]
  | |- reaches ?n ?items (bind (load_init_tasks _ MY_INIT_TASKS) _) =>
      apply (reaches_bind n [] items items);
      [ reflexivity | apply grows_ret | intros _ ]
  end.

Lemma plugin_reaches_config_defaults :
  reaches Filters.CONFIG_DEFAULTS
    (List.map pair_value (CONFIG_DEFAULTS_items __version__))
    (plugin __version__ module_path iglob_dirs).
Proof.
  unfold plugin. repeat reach_step.
  apply reaches_respects, load_patches_same_store. discriminate.
Qed.

Lemma plugin_reaches_template_roots :
  reaches Filters.ENV_TEMPLATE_ROOTS (ENV_TEMPLATE_ROOTS_items module_path)
    (plugin __version__ module_path iglob_dirs).
Proof.
  unfold plugin. repeat reach_step.
  apply reaches_respects, load_patches_same_store. discriminate.
Qed.


(** C1: on a point that overrides by key, whatever the add-ons register
    and in whatever order, the effective mapping holds at each key the
    value of the last contribution registered for it.  The module
    registers EVENT_BUS_BACKEND = kafka, which is then the effective
    value; an add-on loaded after it that registers redis makes the
    effective value redis. *)
Theorem override_precedence :
  (forall (name : string) (base : list (string * value))
          (addons : list (list (string * value))) (w : world),
      merge_kind_of extension_points name = Some OverrideByKey ->
      accepting w ->
      store name w = List.map pair_value base ->
      let run := register_all name (List.map (List.map pair_value) addons) w in
      snd run = Ok tt /\
      exists m, effective_mapping name (w_hooks (fst run)) = Some m /\
                forall k, m !! k = last_write k (base ++ concat addons))
  /\
  (forall (base : list (string * value)) (w : world),
      accepting w ->
      store Filters.CONFIG_DEFAULTS w = List.map pair_value base ->
      let w1 := fst (plugin __version__ module_path iglob_dirs w) in
      let w2 := fst (add_items Filters.CONFIG_DEFAULTS
                       [pair_value ("EVENT_BUS_BACKEND", VStr "redis")] w1) in
      (exists m1, effective_mapping Filters.CONFIG_DEFAULTS (w_hooks w1) = Some m1 /\
                  m1 !! "EVENT_BUS_BACKEND" = Some (VStr "kafka")) /\
      (exists m2, effective_mapping Filters.CONFIG_DEFAULTS (w_hooks w2) = Some m2 /\
                  m2 !! "EVENT_BUS_BACKEND" = Some (VStr "redis"))).
Proof.
  split.
  - intros name base addons w Hk Hw Hbase run.
    destruct (register_all_accepting name (List.map (List.map pair_value) addons)
                OverrideByKey w Hk Hw) as (Hr & _ & Hs).
    fold run in Hr, Hs. split; [exact Hr|].
    exists (merge_override (base ++ concat addons)). split.
    + apply effective_mapping_pairs.
      now rewrite Hs, Hbase, concat_map_map, List.map_app.
    + intros k. apply merge_override_lookup.
  - intros base w Hw Hbase w1 w2.
    assert (Hs1 : store Filters.CONFIG_DEFAULTS w1 =
                  List.map pair_value (base ++ CONFIG_DEFAULTS_items __version__)).
    { unfold w1. rewrite (plugin_reaches_config_defaults w Hw), Hbase.
      now rewrite List.map_app. }
    assert (Hw1 : accepting w1).
    { apply (same_phase_accepting w); [apply plugin_same_phase | exact Hw]. }
    split.
    + exists (merge_override (base ++ CONFIG_DEFAULTS_items __version__)).
      split; [now apply effective_mapping_pairs|].
      rewrite merge_override_lookup, last_write_app. reflexivity.
    + destruct (register_accepting Filters.CONFIG_DEFAULTS
                  [pair_value ("EVENT_BUS_BACKEND", VStr "redis")]
                  OverrideByKey w1 eq_refl Hw1) as (_ & _ & Hs2).
      exists (merge_override
                ((base ++ CONFIG_DEFAULTS_items __version__) ++
                 [("EVENT_BUS_BACKEND", VStr "redis")])).
      split.
      * apply effective_mapping_pairs. unfold w2, add_items.
        rewrite Hs2, Hs1. symmetry. apply List.map_app.
      * rewrite merge_override_lookup, last_write_app. reflexivity.
Qed.


End PluginProperties.

(** ** The registry contract *)

Lemma merge_kind_of_unknown (table : list (string * merge_kind)) (name : string) :
  ~ In name (List.map fst table) -> merge_kind_of table name = None.
Proof.
  induction table as [|[n k] table IH]; simpl; [reflexivity|].
  intros H. destruct (String.eqb_spec n name) as [->|Hne]; [tauto|].
  apply IH. tauto.
Qed.

(** C6: registering under a name outside the table of known points
    raises ConfigurationError and leaves the world as it was: no store
    gains or loses anything. *)
Theorem unknown_point_fails_fast (point_name : string) (contributions : list value)
    (w : world) :
  ~ In point_name (List.map fst extension_points) ->
  register point_name contributions w = (w, Raise (ConfigurationError point_name)) /\
  forall n, all n (w_hooks (fst (register point_name contributions w))) = all n (w_hooks w).
Proof.
  intros H. apply merge_kind_of_unknown in H.
  rewrite (register_unknown point_name contributions w H). now split.
Qed.

(** Once SEALED, no operation changes the registry. *)
Lemma run_op_sealed_frame (o : op) : respects sealed_frame (run_op o).
Proof.
  intros w H. destruct o as [|name item|point_name contributions|]; simpl.
  - unfold start_registration. now rewrite H.
  - now rewrite add_sealed.
  - unfold register. destruct (merge_kind_of extension_points point_name).
    + now rewrite for_each_add_sealed.
    + reflexivity.
  - unfold seal. now rewrite H.
Qed.

Lemma sealed_ops_same_hooks (ops : list op) (w : world) :
  reg_phase (w_hooks w) = SEALED -> w_hooks (run_ops ops w) = w_hooks w.
Proof.
  apply (respects_run_ops sealed_frame); eauto with frame.
  apply run_op_sealed_frame.
Qed.

(** C7: in every state the process reaches after it is SEALED, an add
    on any store is refused with LateRegistrationError and leaves the
    world as it was, the stores are those of the moment of sealing, and
    the module, run then, stops at its first statement without
    registering anything. *)
Theorem sealed_is_immutable (fs : gmap string node) (before after : list op)
    (name : string) (item : value) (__version__ : string)
    (module_path : string -> string) (iglob_dirs : string -> list string) :
  let sealed := run_ops before (initial_world fs) in
  let w := run_ops after sealed in
  reg_phase (w_hooks sealed) = SEALED ->
  add name item w = (w, Raise (LateRegistrationError name)) /\
  w_hooks w = w_hooks sealed /\
  (forall n, all n (w_hooks w) = all n (w_hooks sealed)) /\
  plugin __version__ module_path iglob_dirs w =
    (w, Raise (LateRegistrationError Filters.CONFIG_DEFAULTS)).
Proof.
  intros sealed w Hsealed.
  assert (Hhooks : w_hooks w = w_hooks sealed)
    by (apply sealed_ops_same_hooks; exact Hsealed).
  assert (Hw : reg_phase (w_hooks w) = SEALED) by now rewrite Hhooks.
  split; [now apply add_sealed|]. split; [exact Hhooks|].
  split; [intros n; now rewrite Hhooks|].
  unfold plugin, add_items, register. simpl merge_kind_of. cbv iota.
  simpl List.map. simpl for_each. unfold bind at 1. unfold bind at 1.
  now rewrite add_sealed.
Qed.

(** ** Instances *)

Lemma override_precedence_witness :
  (exists m,
      effective_mapping Filters.CONFIG_DEFAULTS
        (w_hooks (fst (register_all Filters.CONFIG_DEFAULTS
                         [ [pair_value ("EVENT_BUS_BACKEND", VStr "kafka")];
                           [pair_value ("EVENT_BUS_BACKEND", VStr "redis")] ]
                         sample_world))) = Some m /\
      forall k, m !! k =
        last_write k [("EVENT_BUS_BACKEND", VStr "kafka"); ("EVENT_BUS_BACKEND", VStr "redis")])
  /\
  (exists m2,
      effective_mapping Filters.CONFIG_DEFAULTS
        (w_hooks (fst (add_items Filters.CONFIG_DEFAULTS
                         [pair_value ("EVENT_BUS_BACKEND", VStr "redis")]
                         (fst (plugin "1.0" sample_module_path no_expansion sample_world))))) = Some m2 /\
      m2 !! "EVENT_BUS_BACKEND" = Some (VStr "redis")).
Proof.
  split.
  - refine (proj2 (proj1 (override_precedence "1.0" sample_module_path no_expansion)
                     Filters.CONFIG_DEFAULTS []
                     [ [("EVENT_BUS_BACKEND", VStr "kafka")];
                       [("EVENT_BUS_BACKEND", VStr "redis")] ]
                     sample_world _ _ _)).
    + reflexivity.
    + discriminate.
    + reflexivity.
  - refine (proj2 (proj2 (override_precedence "1.0" sample_module_path no_expansion)
                     [] sample_world _ _)).
    + discriminate.
    + reflexivity.
Defined.




Lemma missing_init_task_is_fatal_witness :
  load_init_tasks sample_module_path [sample_init_task] sample_world =
    (sample_world,
     Raise (FileNotFoundError
              "/site-packages/tutorevent_bus_redis/templates/event-bus-redis/jobs/init/lms.sh"))
  /\
  load_init_tasks sample_module_path [bundled_init_task; sample_init_task] sample_world =
    (fst (load_init_tasks sample_module_path [bundled_init_task] sample_world),
     Raise (FileNotFoundError
              "/site-packages/tutorevent_bus_redis/templates/event-bus-redis/jobs/init/lms.sh"))
  /\
  store Filters.CLI_DO_INIT_TASKS
    (fst (load_init_tasks sample_module_path [bundled_init_task] sample_world)) =
    [VTuple [VStr "cms"; VStr "echo cms"]]
  /\
  exists e,
    snd (load_init_tasks sample_module_path [bundled_init_task; sample_init_task]
           sample_world) = Raise e /\
    is_resource_resolution_error e = true.
Proof.
  split; [|split; [|split]].
  - refine (proj1 (missing_init_task_is_fatal sample_module_path sample_world
                     "lms" ["event-bus-redis"; "jobs"; "init"; "lms.sh"] [] _)).
    vm_compute. reflexivity.
  - refine (proj1 (proj2 (proj2 (proj2
              (missing_init_task_is_fatal sample_module_path
                 (fst (load_init_tasks sample_module_path [bundled_init_task] sample_world))
                 "lms" ["event-bus-redis"; "jobs"; "init"; "lms.sh"] [] _))))
              [bundled_init_task] sample_world _).
    + vm_compute. reflexivity.
    + vm_compute. reflexivity.
  - vm_compute. reflexivity.
  - refine (proj2 (proj2 (proj2 (proj2
              (missing_init_task_is_fatal sample_module_path sample_world
                 "lms" ["event-bus-redis"; "jobs"; "init"; "lms.sh"] [] _))))
              [bundled_init_task; sample_init_task] _ _).
    + vm_compute. reflexivity.
    + right. left. reflexivity.
    + discriminate.
Defined.

(** C4, as the claim words it, fails: the script of the second task does
    not exist and the loop raises there, but the first task has loaded
    and its contribution stays, so the store is not the one the
    registration found. *)
Lemma init_store_changed_counterexample :
  In sample_init_task [bundled_init_task; sample_init_task] /\
  w_fs sample_world !! init_task_path sample_module_path sample_init_task = None /\
  snd (load_init_tasks sample_module_path [bundled_init_task; sample_init_task]
         sample_world) =
    Raise (FileNotFoundError
             "/site-packages/tutorevent_bus_redis/templates/event-bus-redis/jobs/init/lms.sh") /\
  store Filters.CLI_DO_INIT_TASKS
    (fst (load_init_tasks sample_module_path [bundled_init_task; sample_init_task]
            sample_world)) =
    [VTuple [VStr "cms"; VStr "echo cms"]] /\
  store Filters.CLI_DO_INIT_TASKS
    (fst (load_init_tasks sample_module_path [bundled_init_task; sample_init_task]
            sample_world)) <>
    store Filters.CLI_DO_INIT_TASKS sample_world.
Proof.
  assert (H : store Filters.CLI_DO_INIT_TASKS
                (fst (load_init_tasks sample_module_path
                        [bundled_init_task; sample_init_task] sample_world)) =
              [VTuple [VStr "cms"; VStr "echo cms"]]) by (vm_compute; reflexivity).
  split; [right; left; reflexivity|]. split; [vm_compute; reflexivity|].
  split; [vm_compute; reflexivity|]. split; [exact H|].
  rewrite H. discriminate.
Qed.

(** C5: the claim holds of a package whose install path holds no
    wildcard, but the loop passes the path to [glob] unescaped.  Here
    the package is installed under [/site-packages[1]] and bundles no
    patches directory; [glob] reads the path as a pattern, which matches
    the patches directory of the copy under [/site-packages1], and the
    loop registers the patch of that other directory. *)
Theorem unescaped_path_reads_other_directory :
  w_fs bracket_world !! patches_dir bracket_module_path = None /\
  has_magic (patches_dir bracket_module_path) = true /\
  glob bracket_expansion bracket_fs (os_path_join (patches_dir bracket_module_path) ["*"]) =
    ["/site-packages1/tutorevent_bus_redis/patches/a.yml"] /\
  snd (load_patches bracket_module_path bracket_expansion bracket_world) = Ok tt /\
  store Filters.ENV_PATCHES
    (fst (load_patches bracket_module_path bracket_expansion bracket_world)) =
    [patch_item "a.yml" "A"].
Proof.
  split; [vm_compute; reflexivity|]. split; [vm_compute; reflexivity|].
  split; [vm_compute; reflexivity|]. split; vm_compute; reflexivity.
Qed.

Lemma unknown_point_fails_fast_witness :
  register "ENV_PATCHES_EXTRA" [VStr "x"] sample_world =
    (sample_world, Raise (ConfigurationError "ENV_PATCHES_EXTRA")).
Proof.
  refine (proj1 (unknown_point_fails_fast "ENV_PATCHES_EXTRA" [VStr "x"] sample_world _)).
  simpl. intros H. repeat destruct H as [H|H]; try discriminate H. exact H.
Defined.

Lemma sealed_is_immutable_witness :
  reg_phase (w_hooks (run_ops sample_before_seal (initial_world sample_fs))) = SEALED /\
  forall n,
    all n (w_hooks (run_ops sample_after_seal
                      (run_ops sample_before_seal (initial_world sample_fs)))) =
    all n (w_hooks (run_ops sample_before_seal (initial_world sample_fs))).
Proof.
  split; [vm_compute; reflexivity|].
  refine (proj1 (proj2 (proj2
            (sealed_is_immutable sample_fs sample_before_seal sample_after_seal
               Filters.ENV_PATCHES (patch_item "late.yml" "x") "1.0" sample_module_path
               no_expansion _)))).
  vm_compute. reflexivity.
Defined.

Lemma patch_contribution_per_file_witness :
  accepting subdir_world /\
  store Filters.ENV_PATCHES (fst (load_patches sample_module_path no_expansion subdir_world)) =
    [patch_item "a.yml" "A"].
Proof.
  split; [discriminate|].
  refine (proj1 (patch_contribution_per_file sample_module_path no_expansion subdir_world _)).
  discriminate.
Defined.

(** C8, as the claim words it, fails: the glob matches [b.yml], which is
    readable, but the loop raises at the subdirectory listed before it
    and [b.yml] gets no contribution. *)
Lemma matched_file_without_contribution_counterexample :
  In "/site-packages/tutorevent_bus_redis/patches/b.yml"
    (glob no_expansion subdir_fs (os_path_join (patches_dir sample_module_path) ["*"])) /\
  read_text subdir_fs "/site-packages/tutorevent_bus_redis/patches/b.yml" = Some "B" /\
  snd (load_patches sample_module_path no_expansion subdir_world) =
    Raise (IsADirectoryError "/site-packages/tutorevent_bus_redis/patches/drafts") /\
  store Filters.ENV_PATCHES (fst (load_patches sample_module_path no_expansion subdir_world)) =
    [patch_item "a.yml" "A"] /\
  ~ In (patch_item "b.yml" "B")
      (store Filters.ENV_PATCHES
         (fst (load_patches sample_module_path no_expansion subdir_world))).
Proof.
  assert (H : store Filters.ENV_PATCHES
                (fst (load_patches sample_module_path no_expansion subdir_world)) =
              [patch_item "a.yml" "A"]) by (vm_compute; reflexivity).
  split; [vm_compute; tauto|]. split; [vm_compute; reflexivity|].
  split; [vm_compute; reflexivity|]. split; [exact H|].
  rewrite H. intros [Hin|[]]. discriminate Hin.
Qed.

(** * Further properties of the module *)

(** ** Template paths *)

Lemma split_sep_nonempty (s : string) : split_sep s <> [].
Proof.
  destruct s as [|c s]; simpl; [discriminate|].
  destruct (is_sep c); [discriminate|]. now destruct (split_sep s).
Qed.

Lemma split_sep_plain (c : string) : has_sep c = false -> split_sep c = [c].
Proof.
  induction c as [|a c IH]; simpl; [reflexivity|].
  intros H. apply orb_false_iff in H as [Ha Hc].
  rewrite Ha, (IH Hc). reflexivity.
Qed.

(** Splitting at separators distributes over a separator in the
    middle. *)
Lemma split_sep_app_sep (s t : string) :
  split_sep (s +:+ "/" +:+ t) = split_sep s ++ split_sep t.
Proof.
  induction s as [|c s IH].
  - rewrite append_nil, append_cons, append_nil. reflexivity.
  - rewrite (append_cons c s). simpl. rewrite IH.
    destruct (is_sep c); [reflexivity|].
    pose proof (split_sep_nonempty s) as Hne.
    now destruct (split_sep s).
Qed.

Lemma endswith_sep_has_sep (s : string) : has_sep s = false -> endswith_sep s = false.
Proof.
  induction s as [|c s IH]; simpl; [reflexivity|].
  intros H. apply orb_false_iff in H as [Hc Hs].
  destruct s; [exact Hc | now apply IH].
Qed.

(** Joining components onto a path and splitting the result gives the
    components back. *)
Lemma join_components (a : string) (cs : list string) :
  is_empty a = false -> endswith_sep a = false -> Forall component cs ->
  is_empty (os_path_join a cs) = false /\
  endswith_sep (os_path_join a cs) = false /\
  split_sep (os_path_join a cs) = split_sep a ++ cs.
Proof.
  intros Ha He Hcs. revert a Ha He.
  induction Hcs as [|c cs [Hc1 Hc2] Hcs IH]; intros a Ha He.
  - simpl. rewrite app_nil_r. auto.
  - unfold os_path_join in *. simpl fold_left.
    rewrite (join_step_plain a c Ha He Hc2).
    assert (Ha' : is_empty (a +:+ "/" +:+ c) = false).
    { apply is_empty_false_app. now apply is_empty_false_app. }
    assert (He' : endswith_sep (a +:+ "/" +:+ c) = false).
    { rewrite endswith_sep_app by now apply is_empty_false_app.
      rewrite endswith_sep_app by assumption.
      now apply endswith_sep_has_sep. }
    destruct (IH _ Ha' He') as (H1 & H2 & H3).
    split; [exact H1|]. split; [exact H2|].
    rewrite H3, split_sep_app_sep, (split_sep_plain c Hc2).
    now rewrite <- app_assoc.
Qed.

Section ModuleProperties.

Variable __version__ : string.
Variable module_path : string -> string.
Variable iglob_dirs : string -> list string.

(** X6: the script of an init task whose template path is made of plain,
    non-empty components is looked up at the package directory joined
    with [templates] and the components in order: joining them, and
    splitting and joining again at resolution, loses nothing.  The
    script so lies under the template root the module registers. *)
Theorem init_task_path_resolution (service : string) (template_path : list string) :
  Forall component template_path ->
  init_task_path module_path (service, template_path) =
    os_path_join (module_path "tutorevent_bus_redis") ("templates" :: template_path) /\
  init_task_path module_path (service, template_path) =
    os_path_join (resource_filename module_path "tutorevent_bus_redis" "templates")
      template_path /\
  ENV_TEMPLATE_ROOTS_items module_path =
    [VStr (resource_filename module_path "tutorevent_bus_redis" "templates")].
Proof.
  intros H.
  destruct (join_components "templates" template_path eq_refl eq_refl H) as (Hne & _ & Hsplit).
  assert (E : init_task_path module_path (service, template_path) =
              os_path_join (module_path "tutorevent_bus_redis")
                ("templates" :: template_path)).
  { unfold init_task_path, resource_filename. simpl snd. now rewrite Hne, Hsplit. }
  split; [exact E|]. split; [|reflexivity].
  rewrite E. reflexivity.
Qed.

(** *** The patch loop *)

(** X1: when the path of the patches directory holds no wildcard and
    while the process accepts contributions, the patch loop registers
    the visible entries of the patches directory in listing order up to
    the first that cannot be read as text; it returns when there is no
    such entry, and otherwise raises what opening or reading that entry
    raises, with the patches before it registered and none after.  It
    reads only, and adds to no other store. *)
Theorem patch_loop_outcome (w : world) :
  has_magic (patches_dir module_path) = false ->
  accepting w ->
  Forall plain_name (listdir (w_fs w) (patches_dir module_path)) ->
  store Filters.ENV_PATCHES (fst (load_patches module_path iglob_dirs w)) =
    store Filters.ENV_PATCHES w ++
    List.map patch_of
      (readable_prefix (w_fs w) (child (patches_dir module_path))
         (visible_names (w_fs w) (patches_dir module_path))) /\
  match first_unreadable (w_fs w) (child (patches_dir module_path))
          (visible_names (w_fs w) (patches_dir module_path)) with
  | None => snd (load_patches module_path iglob_dirs w) = Ok tt
  | Some n =>
      exists e, snd (load_patches module_path iglob_dirs w) = Raise e /\
                snd (open_read (child (patches_dir module_path) n) w) = Raise e /\
                is_resource_resolution_error e = true
  end /\
  w_fs (fst (load_patches module_path iglob_dirs w)) = w_fs w /\
  forall n, n <> Filters.ENV_PATCHES ->
    reg_stores (w_hooks (fst (load_patches module_path iglob_dirs w))) !! n =
    reg_stores (w_hooks w) !! n.
Proof.
  intros Hm Hw Hplain.
  destruct (load_patches_outcome module_path iglob_dirs w Hm Hw Hplain) as [Hs Hout].
  split; [exact Hs|]. split; [exact Hout|]. split.
  - apply (load_patches_same_fs module_path).
  - intros n Hn. now apply (load_patches_same_store module_path).
Qed.


(** X7: when the path of the patches directory holds no wildcard,
    whatever the patch loop adds is the patch of an entry of the patches
    directory whose name does not start with a dot and holds no
    separator, with the text of that entry: hidden files are never
    registered. *)
Theorem patches_are_visible_entries (w : world) :
  has_magic (patches_dir module_path) = false ->
  accepting w ->
  Forall plain_name (listdir (w_fs w) (patches_dir module_path)) ->
  exists added,
    store Filters.ENV_PATCHES (fst (load_patches module_path iglob_dirs w)) =
      store Filters.ENV_PATCHES w ++ List.map patch_of added /\
    Forall (fun nt =>
              In (fst nt) (listdir (w_fs w) (patches_dir module_path)) /\
              ishidden (fst nt) = false /\
              has_sep (fst nt) = false /\
              read_text (w_fs w) (child (patches_dir module_path) (fst nt)) = Some (snd nt))
      added.
Proof.
  intros Hm Hw Hplain.
  destruct (load_patches_outcome module_path iglob_dirs w Hm Hw Hplain) as [Hs _].
  eexists. split; [exact Hs|].
  eapply Forall_impl; [apply readable_prefix_elements|].
  simpl. intros [n t] [Hin Hread]. simpl in *.
  unfold visible_names in Hin. apply List.filter_In in Hin as [Hin Hvis].
  split; [exact Hin|]. split; [now apply negb_true_iff|]. split; [|exact Hread].
  rewrite List.Forall_forall in Hplain. now apply Hplain.
Qed.

(** *** The loop over the init tasks *)

Lemma init_task_body_reads (task : string * list string) (w : world) :
  init_task_body module_path task w =
  (text <- open_read (init_task_path module_path task) ;;
   add_item Filters.CLI_DO_INIT_TASKS (init_task_of (task, text))) w.
Proof. now destruct task. Qed.

Lemma init_task_body_same_store (n : string) (task : string * list string) :
  n <> Filters.CLI_DO_INIT_TASKS ->
  respects (same_store n) (init_task_body module_path task).
Proof.
  intros Hn. destruct task as [service template_path]. unfold init_task_body.
  apply respects_bind; [eauto with frame | frame_solve |].
  intros text. now apply register_same_store.
Qed.

(** X2: while the process accepts contributions the loop over the init
    tasks registers, for each task in order up to the first whose script
    cannot be read as text, the pair of the service and the text of the
    script; it returns when every script is readable and otherwise
    raises what opening or reading that script raises.  It reads only,
    and adds to no other store. *)
Theorem init_task_loop_outcome (tasks : list (string * list string)) (w : world) :
  accepting w ->
  store Filters.CLI_DO_INIT_TASKS (fst (load_init_tasks module_path tasks w)) =
    store Filters.CLI_DO_INIT_TASKS w ++
    List.map init_task_of
      (readable_prefix (w_fs w) (init_task_path module_path) tasks) /\
  match first_unreadable (w_fs w) (init_task_path module_path) tasks with
  | None => snd (load_init_tasks module_path tasks w) = Ok tt
  | Some task =>
      exists e, snd (load_init_tasks module_path tasks w) = Raise e /\
                snd (open_read (init_task_path module_path task) w) = Raise e /\
                is_resource_resolution_error e = true
  end /\
  w_fs (fst (load_init_tasks module_path tasks w)) = w_fs w /\
  forall n, n <> Filters.CLI_DO_INIT_TASKS ->
    reg_stores (w_hooks (fst (load_init_tasks module_path tasks w))) !! n =
    reg_stores (w_hooks w) !! n.
Proof.
  intros Hw. unfold load_init_tasks.
  destruct (reading_loop_outcome Filters.CLI_DO_INIT_TASKS OrderedAppend
              (init_task_path module_path) (fun task text => init_task_of (task, text))
              (init_task_body module_path) eq_refl init_task_body_reads tasks w Hw)
    as (_ & Hfs & Hs & Hout).
  split.
  - exact Hs.
  - split; [exact Hout|]. split; [exact Hfs|].
    intros n Hn. apply (respects_for_each (same_store n)); eauto with frame.
    intros task. now apply init_task_body_same_store.
Qed.

(** *** The module as a whole *)

Lemma step_through (n : string) {A B : Type} (m : M A) (k : A -> M B) (w : world) :
  grows n [] m -> respects same_fs m -> accepting w ->
  exists a w1, bind m k w = k a w1 /\ accepting w1 /\
               w_fs w1 = w_fs w /\ store n w1 = store n w.
Proof.
  intros Hg Hfs Hw. destruct (Hg w Hw) as ([a Ha] & Hacc & Hs).
  specialize (Hfs w). unfold same_fs in Hfs. unfold bind.
  destruct (m w) as [w1 r]. simpl in *. subst r.
  exists a, w1. rewrite app_nil_r in Hs. auto.
Qed.

Ltac grows_side :=
  first [ apply grows_ret
        | unfold add_items; eapply grows_register_other; [reflexivity | discriminate] ].

Ltac same_fs_side :=
  first [ apply respects_ret; eauto with frame
        | unfold add_items; apply register_same_fs ].

Ltac step_module :=
  lazymatch goal with
  | Hacc : accepting ?w0, Hfs : w_fs ?w0 = _, Hst : store _ ?w0 = _
    |- context [bind ?m ?k ?w0] =>
      let a := fresh "a" in
      let w1 := fresh "w" in
      let E := fresh "E" in
      let Hacc1 := fresh "Hacc" in
      let Hfs1 := fresh "Hfs" in
      let Hst1 := fresh "Hst" in
      destruct (step_through Filters.ENV_PATCHES m k w0
                  ltac:(grows_side) ltac:(same_fs_side) Hacc)
        as (a & w1 & E & Hacc1 & Hfs1 & Hst1);
      rewrite E; cbv beta;
      pose proof (eq_trans Hfs1 Hfs); pose proof (eq_trans Hst1 Hst);
      clear E Hacc Hfs Hst Hfs1 Hst1
  end.

(** While the process accepts contributions every statement before the
    patch loop returns; the loop then runs over the same file system and
    finds the patches store as the module found it. *)
Lemma plugin_reaches_patch_loop (w : world) :
  accepting w ->
  exists w9,
    plugin __version__ module_path iglob_dirs w = load_patches module_path iglob_dirs w9 /\
    accepting w9 /\ w_fs w9 = w_fs w /\
    store Filters.ENV_PATCHES w9 = store Filters.ENV_PATCHES w.
Proof.
  intros Hacc.
  assert (Hfs : w_fs w = w_fs w) by reflexivity.
  assert (Hst : store Filters.ENV_PATCHES w = store Filters.ENV_PATCHES w) by reflexivity.
  unfold plugin, load_init_tasks, MY_INIT_TASKS. simpl for_each.
  do 9 step_module.
  eexists. split; [reflexivity|]. auto.
Qed.

Lemma load_patches_same_outcome (w w' : world) :
  accepting w -> accepting w' -> w_fs w' = w_fs w ->
  snd (load_patches module_path iglob_dirs w') = snd (load_patches module_path iglob_dirs w).
Proof.
  intros Hw Hw' Hfs.
  destruct (load_patches_raw module_path iglob_dirs w Hw) as (_ & _ & _ & Hout).
  destruct (load_patches_raw module_path iglob_dirs w' Hw') as (_ & _ & _ & Hout').
  rewrite Hfs in Hout'.
  destruct (first_unreadable (w_fs w) id
              (glob iglob_dirs (w_fs w) (os_path_join (patches_dir module_path) ["*"])))
    as [n|].
  - destruct Hout as (e & He & Hopen & _). destruct Hout' as (e' & He' & Hopen' & _).
    rewrite (open_read_fs _ w w' Hfs) in Hopen'. congruence.
  - congruence.
Qed.

(** X3: while the process accepts contributions the module returns or
    raises exactly as its patch loop alone would: no other statement
    fails, so whatever the module raises is an error of reading a
    patch.  The patches it leaves registered are those the loop alone
    would leave. *)
Theorem module_outcome_is_patch_loop_outcome (w : world) :
  accepting w ->
  snd (plugin __version__ module_path iglob_dirs w) = snd (load_patches module_path iglob_dirs w) /\
  store Filters.ENV_PATCHES (fst (plugin __version__ module_path iglob_dirs w)) =
    store Filters.ENV_PATCHES (fst (load_patches module_path iglob_dirs w)) /\
  forall e, snd (plugin __version__ module_path iglob_dirs w) = Raise e ->
            is_resource_resolution_error e = true.
Proof.
  intros Hw. destruct (plugin_reaches_patch_loop w Hw) as (w9 & E & Hw9 & Hfs & Hst).
  rewrite E.
  assert (Hsame : snd (load_patches module_path iglob_dirs w9) = snd (load_patches module_path iglob_dirs w))
    by now apply load_patches_same_outcome.
  split; [exact Hsame|]. split.
  - destruct (load_patches_raw module_path iglob_dirs w Hw) as (_ & _ & Hs & _).
    destruct (load_patches_raw module_path iglob_dirs w9 Hw9) as (_ & _ & Hs9 & _).
    rewrite Hs9, Hs, Hst, Hfs. reflexivity.
  - intros e He. rewrite Hsame in He.
    destruct (load_patches_raw module_path iglob_dirs w Hw) as (_ & _ & _ & Hout).
    destruct (first_unreadable (w_fs w) id
                (glob iglob_dirs (w_fs w) (os_path_join (patches_dir module_path) ["*"])))
      as [n|].
    + destruct Hout as (e' & He' & _ & Hres). congruence.
    + congruence.
Qed.

(** X4: in any phase and whether it returns or raises, the module leaves
    every store other than those of CONFIG_DEFAULTS, ENV_TEMPLATE_ROOTS,
    ENV_TEMPLATE_TARGETS and ENV_PATCHES exactly as it was: it registers
    no init task, no job and no command. *)
Theorem module_writes_four_stores (n : string) (w : world) :
  ~ In n written_filters ->
  reg_stores (w_hooks (fst (plugin __version__ module_path iglob_dirs w))) !! n =
  reg_stores (w_hooks w) !! n.
Proof.
  intros Hn. simpl in Hn.
  assert (H1 : n <> Filters.CONFIG_DEFAULTS) by (intros ->; tauto).
  assert (H2 : n <> Filters.ENV_TEMPLATE_ROOTS) by (intros ->; tauto).
  assert (H3 : n <> Filters.ENV_TEMPLATE_TARGETS) by (intros ->; tauto).
  assert (H4 : n <> Filters.ENV_PATCHES) by (intros ->; tauto).
  revert w. change (respects (same_store n) (plugin __version__ module_path iglob_dirs)).
  unfold plugin, load_init_tasks, MY_INIT_TASKS. simpl for_each.
  repeat (apply respects_bind;
          [ eauto with frame
          | first [ apply respects_ret; solve [eauto with frame]
                  | unfold add_items;
                    first [ apply register_nil_respects; solve [eauto with frame]
                          | apply register_same_store; assumption ] ]
          | intros _ ]).
  now apply load_patches_same_store.
Qed.

(** *** The defaults of the module in the effective configuration *)

Lemma last_write_absent (k : string) (items : list (string * value)) :
  ~ In k (List.map fst items) -> last_write k items = None.
Proof.
  induction items as [|[k' v] items IH]; simpl; [reflexivity|].
  intros H. rewrite IH by tauto.
  destruct (String.eqb_spec k' k) as [->|Hne]; [tauto | reflexivity].
Qed.

(** No default of the module is shadowed by a later one of its own. *)
Lemma module_defaults_last_write (k : string) (v : value) :
  In (k, v) (CONFIG_DEFAULTS_items __version__) ->
  last_write k (CONFIG_DEFAULTS_items __version__) = Some v.
Proof.
  intros H. simpl in H.
  repeat (destruct H as [H|H]; [injection H as <- <-; reflexivity|]).
  destruct H.
Qed.

(** X5: right after the module, the effective configuration holds every
    default the module lists, with the value listed, whatever earlier
    add-ons registered for those keys; at every other key it holds what
    the earlier add-ons left. *)
Theorem module_defaults_effective (base : list (string * value)) (w : world) :
  accepting w ->
  store Filters.CONFIG_DEFAULTS w = List.map pair_value base ->
  exists m,
    effective_mapping Filters.CONFIG_DEFAULTS
      (w_hooks (fst (plugin __version__ module_path iglob_dirs w))) = Some m /\
    (forall k v, In (k, v) (CONFIG_DEFAULTS_items __version__) -> m !! k = Some v) /\
    (forall k, ~ In k (List.map fst (CONFIG_DEFAULTS_items __version__)) ->
               m !! k = last_write k base).
Proof.
  intros Hw Hbase.
  exists (merge_override (base ++ CONFIG_DEFAULTS_items __version__)).
  split; [|split].
  - apply effective_mapping_pairs.
    rewrite (plugin_reaches_config_defaults __version__ module_path iglob_dirs w Hw), Hbase.
    now rewrite List.map_app.
  - intros k v Hin. rewrite merge_override_lookup, last_write_app.
    now rewrite (module_defaults_last_write k v Hin).
  - intros k Hk. rewrite merge_override_lookup, last_write_app.
    now rewrite (last_write_absent k _ Hk).
Qed.

(** X10: running the module a second time appends its defaults and its
    template root once more, the stores keeping the duplicates, and
    leaves the effective configuration as it was after the first run. *)
Theorem module_rerun (base : list (string * value)) (w : world) :
  let w1 := fst (plugin __version__ module_path iglob_dirs w) in
  let w2 := fst (plugin __version__ module_path iglob_dirs w1) in
  accepting w ->
  store Filters.CONFIG_DEFAULTS w = List.map pair_value base ->
  store Filters.CONFIG_DEFAULTS w2 =
    store Filters.CONFIG_DEFAULTS w ++
    List.map pair_value (CONFIG_DEFAULTS_items __version__) ++
    List.map pair_value (CONFIG_DEFAULTS_items __version__) /\
  store Filters.ENV_TEMPLATE_ROOTS w2 =
    store Filters.ENV_TEMPLATE_ROOTS w ++
    ENV_TEMPLATE_ROOTS_items module_path ++ ENV_TEMPLATE_ROOTS_items module_path /\
  effective_mapping Filters.CONFIG_DEFAULTS (w_hooks w2) =
    effective_mapping Filters.CONFIG_DEFAULTS (w_hooks w1).
Proof.
  intros w1 w2 Hw Hbase.
  assert (Hw1 : accepting w1).
  { apply (same_phase_accepting w); [apply plugin_same_phase | exact Hw]. }
  assert (Hs1 : store Filters.CONFIG_DEFAULTS w1 =
                List.map pair_value (base ++ CONFIG_DEFAULTS_items __version__)).
  { unfold w1. rewrite (plugin_reaches_config_defaults __version__ module_path iglob_dirs w Hw), Hbase.
    now rewrite List.map_app. }
  assert (Hs2 : store Filters.CONFIG_DEFAULTS w2 =
                List.map pair_value ((base ++ CONFIG_DEFAULTS_items __version__) ++
                                     CONFIG_DEFAULTS_items __version__)).
  { unfold w2. rewrite (plugin_reaches_config_defaults __version__ module_path iglob_dirs w1 Hw1), Hs1.
    now rewrite <- List.map_app. }
  split; [|split].
  - rewrite Hs2, Hbase, !List.map_app. now rewrite <- app_assoc.
  - unfold w2. rewrite (plugin_reaches_template_roots __version__ module_path iglob_dirs w1 Hw1).
    unfold w1. rewrite (plugin_reaches_template_roots __version__ module_path iglob_dirs w Hw).
    now rewrite <- app_assoc.
  - rewrite (effective_mapping_pairs _ _ _ Hs2), (effective_mapping_pairs _ _ _ Hs1).
    f_equal. apply map_eq. intros k.
    rewrite !merge_override_lookup, !last_write_app.
    now destruct (last_write k (CONFIG_DEFAULTS_items __version__)).
Qed.

(** *** The patches and the order of the listing *)

Lemma read_text_insert_dir (fs : gmap string node) (d p : string) (l : list string) :
  read_text (<[d := Directory l]> fs) p =
  if String.eqb d p then None else read_text fs p.
Proof.
  unfold read_text. destruct (String.eqb_spec d p) as [->|Hne].
  - now rewrite lookup_insert_eq.
  - now rewrite lookup_insert_ne.
Qed.

Lemma visible_names_insert_dir (fs : gmap string node) (d d' : string) (l : list string) :
  visible_names (<[d := Directory l]> fs) d' =
  if String.eqb d d' then List.filter (fun x => negb (ishidden x)) l
  else visible_names fs d'.
Proof.
  unfold visible_names, listdir. destruct (String.eqb_spec d d') as [->|Hne].
  - now rewrite lookup_insert_eq.
  - now rewrite lookup_insert_ne.
Qed.

Lemma filter_permutation {A : Type} (f : A -> bool) (l1 l2 : list A) :
  l1 ≡ₚ l2 -> List.filter f l1 ≡ₚ List.filter f l2.
Proof.
  induction 1 as [|x l1 l2 H IH|x y l|l1 l2 l3 H12 IH12 H23 IH23]; simpl.
  - constructor.
  - destruct (f x); [now constructor | exact IH].
  - destruct (f x), (f y); try reflexivity. apply perm_swap.
  - now transitivity (List.filter f l2).
Qed.

Lemma flat_map_permutation {A B : Type} (f g : A -> list B) (l : list A) :
  (forall x, f x ≡ₚ g x) -> flat_map f l ≡ₚ flat_map g l.
Proof.
  intros H. induction l as [|x l IH]; simpl; [constructor|].
  now apply Permutation_app.
Qed.

(** X9: when the directory lists the same patch files in another order,
    the patch loop that returned for one order returns for the other,
    and the patches it adds are the same up to their order. *)
Theorem patch_set_independent_of_listing_order (fs : gmap string node) (r : registry)
    (l1 l2 : list string) :
  let d := patches_dir module_path in
  let w1 := MkWorld (<[d := Directory l1]> fs) r in
  let w2 := MkWorld (<[d := Directory l2]> fs) r in
  l1 ≡ₚ l2 ->
  Forall plain_name l1 ->
  reg_phase r <> SEALED ->
  snd (load_patches module_path iglob_dirs w1) = Ok tt ->
  snd (load_patches module_path iglob_dirs w2) = Ok tt /\
  exists added1 added2,
    store Filters.ENV_PATCHES (fst (load_patches module_path iglob_dirs w1)) =
      all Filters.ENV_PATCHES r ++ added1 /\
    store Filters.ENV_PATCHES (fst (load_patches module_path iglob_dirs w2)) =
      all Filters.ENV_PATCHES r ++ added2 /\
    added1 ≡ₚ added2.
Proof.
  intros d w1 w2 Hperm _ Hphase Hok.
  assert (Hw1 : accepting w1) by exact Hphase.
  assert (Hw2 : accepting w2) by exact Hphase.
  destruct (patches_dir_shape module_path) as [Hd He]. fold d in Hd, He.
  destruct (load_patches_raw module_path iglob_dirs w1 Hw1) as (_ & _ & Hs1 & Hout1).
  destruct (load_patches_raw module_path iglob_dirs w2 Hw2) as (_ & _ & Hs2 & Hout2).
  fold d in Hs1, Hs2, Hout1, Hout2. simpl w_fs in Hs1, Hs2, Hout1, Hout2.
  rewrite (glob_wildcard iglob_dirs (<[d := Directory l1]> fs) d Hd He) in Hs1, Hout1.
  rewrite (glob_wildcard iglob_dirs (<[d := Directory l2]> fs) d Hd He) in Hs2, Hout2.
  set (dirs := if has_magic d then iglob_dirs d else [d]) in *.
  set (paths1 := flat_map
         (fun d' => List.map (join_step d') (visible_names (<[d := Directory l1]> fs) d'))
         dirs) in *.
  set (paths2 := flat_map
         (fun d' => List.map (join_step d') (visible_names (<[d := Directory l2]> fs) d'))
         dirs) in *.
  assert (Hpaths : paths1 ≡ₚ paths2).
  { apply flat_map_permutation. intros d'. apply Permutation_map.
    rewrite !visible_names_insert_dir.
    destruct (String.eqb d d'); [now apply filter_permutation | reflexivity]. }
  assert (Hread : forall p, read_text (<[d := Directory l2]> fs) (id p) =
                            read_text (<[d := Directory l1]> fs) (id p)).
  { intros p. now rewrite !read_text_insert_dir. }
  destruct (readable_prefix_fs _ _ id paths2 Hread) as [P2 F2].
  rewrite P2 in Hs2. rewrite F2 in Hout2.
  assert (Hnone1 : first_unreadable (<[d := Directory l1]> fs) id paths1 = None).
  { destruct (first_unreadable (<[d := Directory l1]> fs) id paths1); [|reflexivity].
    destruct Hout1 as (e & He1 & _). congruence. }
  assert (Hnone2 : first_unreadable (<[d := Directory l1]> fs) id paths2 = None).
  { apply first_unreadable_None. rewrite <- Hpaths. now apply first_unreadable_None. }
  rewrite Hnone2 in Hout2. split; [exact Hout2|].
  do 2 eexists. split; [exact Hs1|]. split; [exact Hs2|].
  change (List.map patch_of_path) with
    (List.map (fun pt : string * string => patch_item (basename (fst pt)) (snd pt))).
  rewrite (readable_prefix_all id (fun p t => patch_item (basename p) t) _ _ Hnone1).
  rewrite (readable_prefix_all id (fun p t => patch_item (basename p) t) _ _ Hnone2).
  now apply Permutation_map.
Qed.

(** *** Names and unreadable entries *)

Lemma basename_no_sep (p : string) : has_sep (basename p) = false.
Proof.
  induction p as [|c p IH]; simpl; [reflexivity|].
  destruct (has_sep p) eqn:E; [exact IH|].
  destruct (is_sep c) eqn:Ec; [exact E|].
  simpl. now rewrite Ec, E.
Qed.

Lemma head_basename (p : string) : head_with_sep p +:+ basename p = p.
Proof.
  induction p as [|c p IH]; simpl; [reflexivity|].
  destruct (has_sep p) eqn:E.
  - rewrite append_cons. now rewrite IH.
  - destruct (is_sep c); [reflexivity|]. now rewrite append_nil.
Qed.

(** X11: the body of the patch loop, on any path whose file is readable,
    registers the text under what follows the last separator of the
    path: the name holds no separator, and the path is its directory
    part followed by the name. *)
Theorem patch_name_is_last_component (path text : string) (w : world) :
  accepting w ->
  read_text (w_fs w) path = Some text ->
  snd (patch_body path w) = Ok tt /\
  store Filters.ENV_PATCHES (fst (patch_body path w)) =
    store Filters.ENV_PATCHES w ++ [patch_item (basename path) text] /\
  has_sep (basename path) = false /\
  head_with_sep path +:+ basename path = path.
Proof.
  intros Hw Ht.
  destruct (body_readable Filters.ENV_PATCHES OrderedAppend (fun p => p)
              (fun p t => patch_item (basename p) t) patch_body eq_refl
              (fun _ _ => eq_refl) path text w Hw Ht) as (Hr & _ & _ & Hs).
  split; [exact Hr|]. split; [exact Hs|].
  split; [apply basename_no_sep | apply head_basename].
Qed.

(** X12: when the path of the patches directory holds no wildcard, one
    visible entry of the directory that cannot be read as text,
    wherever the directory lists it, makes the whole module raise an
    error of resource resolution while the process accepts
    contributions: a subdirectory, a file that is not UTF-8 or a
    dangling link among the patches is fatal. *)
Theorem unreadable_patch_is_fatal (n : string) (w : world) :
  has_magic (patches_dir module_path) = false ->
  accepting w ->
  In n (visible_names (w_fs w) (patches_dir module_path)) ->
  read_text (w_fs w) (join_step (patches_dir module_path) n) = None ->
  exists e,
    snd (plugin __version__ module_path iglob_dirs w) = Raise e /\
    snd (load_patches module_path iglob_dirs w) = Raise e /\
    is_resource_resolution_error e = true.
Proof.
  intros Hm Hw Hin Hnone.
  destruct (plugin_reaches_patch_loop w Hw) as (w9 & E & Hw9 & Hfs & _).
  pose proof (load_patches_same_outcome w w9 Hw Hw9 Hfs) as Hsame.
  destruct (load_patches_raw module_path iglob_dirs w Hw) as (_ & _ & _ & Hout).
  rewrite (glob_patches module_path iglob_dirs _ Hm) in Hout.
  destruct (first_unreadable (w_fs w) id
              (List.map (join_step (patches_dir module_path))
                 (visible_names (w_fs w) (patches_dir module_path)))) as [x|] eqn:Ex.
  - destruct Hout as (e & He & _ & Hres). exists e.
    rewrite E, Hsame. auto.
  - exfalso. apply first_unreadable_None in Ex.
    rewrite List.Forall_forall in Ex.
    apply (Ex (join_step (patches_dir module_path) n)); [|exact Hnone].
    now apply List.in_map.
Qed.

End ModuleProperties.





Lemma init_task_path_resolution_witness :
  init_task_path sample_module_path sample_init_task =
    "/site-packages/tutorevent_bus_redis/templates/event-bus-redis/jobs/init/lms.sh".
Proof.
  refine (eq_trans (proj1 (init_task_path_resolution sample_module_path "lms"
                             ["event-bus-redis"; "jobs"; "init"; "lms.sh"] _)) _).
  - repeat constructor.
  - reflexivity.
Defined.

Lemma patch_loop_outcome_witness :
  store Filters.ENV_PATCHES (fst (load_patches sample_module_path no_expansion subdir_world)) =
    [patch_item "a.yml" "A"] /\
  exists e,
    snd (load_patches sample_module_path no_expansion subdir_world) = Raise e /\
    snd (open_read (child (patches_dir sample_module_path) "drafts") subdir_world) = Raise e /\
    is_resource_resolution_error e = true.
Proof.
  destruct (patch_loop_outcome sample_module_path no_expansion subdir_world)
    as (Hs & Hout & _).
  - reflexivity.
  - discriminate.
  - repeat constructor.
  - split; [exact Hs | exact Hout].
Defined.

Lemma init_task_loop_outcome_witness :
  store Filters.CLI_DO_INIT_TASKS
    (fst (load_init_tasks sample_module_path [bundled_init_task; sample_init_task]
            sample_world)) =
    [VTuple [VStr "cms"; VStr "echo cms"]] /\
  exists e,
    snd (load_init_tasks sample_module_path [bundled_init_task; sample_init_task]
           sample_world) = Raise e /\
    snd (open_read (init_task_path sample_module_path sample_init_task) sample_world) =
      Raise e /\
    is_resource_resolution_error e = true.
Proof.
  pose proof (init_task_loop_outcome sample_module_path
                [bundled_init_task; sample_init_task] sample_world) as H.
  destruct H as (Hs & Hout & _); [discriminate|].
  split; [exact Hs | exact Hout].
Defined.

Lemma module_outcome_is_patch_loop_outcome_witness :
  snd (plugin "1.0" sample_module_path no_expansion subdir_world) =
    snd (load_patches sample_module_path no_expansion subdir_world) /\
  snd (plugin "1.0" sample_module_path no_expansion subdir_world) =
    Raise (IsADirectoryError "/site-packages/tutorevent_bus_redis/patches/drafts").
Proof.
  split.
  - refine (proj1 (module_outcome_is_patch_loop_outcome "1.0" sample_module_path no_expansion
                     subdir_world _)).
    discriminate.
  - vm_compute. reflexivity.
Defined.

Lemma module_writes_four_stores_witness :
  reg_stores (w_hooks (fst (plugin "1.0" sample_module_path no_expansion sample_world)))
    !! Filters.CLI_DO_INIT_TASKS =
  reg_stores (w_hooks sample_world) !! Filters.CLI_DO_INIT_TASKS.
Proof.
  refine (module_writes_four_stores "1.0" sample_module_path no_expansion
            Filters.CLI_DO_INIT_TASKS sample_world _).
  simpl. intros H. repeat destruct H as [H|H]; try discriminate H. exact H.
Defined.

Lemma module_defaults_effective_witness :
  exists m,
    effective_mapping Filters.CONFIG_DEFAULTS
      (w_hooks (fst (plugin "1.0" sample_module_path no_expansion later_world))) = Some m /\
    m !! "EVENT_BUS_BACKEND" = Some (VStr "kafka") /\
    m !! "PLATFORM_NAME" = Some (VStr "My platform").
Proof.
  destruct (module_defaults_effective "1.0" sample_module_path no_expansion earlier_defaults later_world)
    as (m & Hm & Hin & Hout).
  - discriminate.
  - reflexivity.
  - exists m. split; [exact Hm|]. split.
    + apply Hin. simpl. auto.
    + rewrite Hout; [reflexivity|].
      simpl. intros H. repeat destruct H as [H|H]; try discriminate H. exact H.
Defined.

Lemma patches_are_visible_entries_witness :
  exists added,
    store Filters.ENV_PATCHES (fst (load_patches sample_module_path no_expansion sample_world)) =
      store Filters.ENV_PATCHES sample_world ++ List.map patch_of added /\
    Forall (fun nt =>
              In (fst nt) (listdir (w_fs sample_world) (patches_dir sample_module_path)) /\
              ishidden (fst nt) = false /\
              has_sep (fst nt) = false /\
              read_text (w_fs sample_world)
                (child (patches_dir sample_module_path) (fst nt)) = Some (snd nt))
      added.
Proof.
  refine (patches_are_visible_entries sample_module_path no_expansion sample_world _ _ _).
  - reflexivity.
  - discriminate.
  - repeat constructor.
Defined.

Lemma patch_set_independent_of_listing_order_witness :
  snd (load_patches sample_module_path no_expansion
         (MkWorld (<[patches_dir sample_module_path := Directory ["a.yml"; "b.yml"]]> sample_fs)
            (MkRegistry REGISTERING ∅))) = Ok tt.
Proof.
  refine (proj1 (patch_set_independent_of_listing_order sample_module_path no_expansion
                   sample_fs
                   (MkRegistry REGISTERING ∅) ["b.yml"; "a.yml"] ["a.yml"; "b.yml"]
                   _ _ _ _)).
  - apply perm_swap.
  - repeat constructor.
  - discriminate.
  - vm_compute. reflexivity.
Defined.

Lemma module_rerun_witness :
  effective_mapping Filters.CONFIG_DEFAULTS
    (w_hooks (fst (plugin "1.0" sample_module_path no_expansion
                     (fst (plugin "1.0" sample_module_path no_expansion sample_world))))) =
  effective_mapping Filters.CONFIG_DEFAULTS
    (w_hooks (fst (plugin "1.0" sample_module_path no_expansion sample_world))).
Proof.
  refine (proj2 (proj2 (module_rerun "1.0" sample_module_path no_expansion [] sample_world _ _))).
  - discriminate.
  - reflexivity.
Defined.

Lemma patch_name_is_last_component_witness :
  store Filters.ENV_PATCHES
    (fst (patch_body "/site-packages/tutorevent_bus_redis/patches/a.yml" sample_world)) =
    store Filters.ENV_PATCHES sample_world ++ [patch_item "a.yml" "A"].
Proof.
  refine (proj1 (proj2 (patch_name_is_last_component
                          "/site-packages/tutorevent_bus_redis/patches/a.yml" "A"
                          sample_world _ _))).
  - discriminate.
  - reflexivity.
Defined.

Lemma unreadable_patch_is_fatal_witness :
  exists e,
    snd (plugin "1.0" sample_module_path no_expansion subdir_world) = Raise e /\
    snd (load_patches sample_module_path no_expansion subdir_world) = Raise e /\
    is_resource_resolution_error e = true.
Proof.
  refine (unreadable_patch_is_fatal "1.0" sample_module_path no_expansion "drafts"
            subdir_world _ _ _ _).
  - reflexivity.
  - discriminate.
  - vm_compute. auto.
  - reflexivity.
Defined.

